(** * renderbalance: the balance-polling robot of [defi_robot.py]

    A shallow embedding of the polling pipeline: the RPC fail-over cursor
    ([switch_rpc]), the balance aggregation with its self-recursive retry
    ([get_balances]), the SQLite snapshot table ([save_snapshot],
    [cleanup_database]), the robot thread ([robot_loop]) and the three
    read-only Flask routes ([latest_snapshot], [history], [stats]).

    Conventions.
    - Python [int] is [Z] (or [nat] for the list cursor, which is never
      negative); Python [float] is the kernel's IEEE-754 binary64 [float].
    - A Python exception is a value of [exn]; code that may raise returns
      [exn + A], [inl] being the raise.
    - The module-level globals [current_rpc_index] and [provider] live in a
      [world] record that is threaded through the code, together with the
      trace of the observable actions (contract calls and sleeps).  Output to
      stdout ([print]) is not modelled.
    - [get_balances] retries by calling itself.  [get_balances] below is that
      recursion as written, run for at most [fuel] attempts ([None]: all of
      them failed and the recursion goes on); it is what a call does as long
      as the interpreter has stack left.  [get_balances_limited] is the call
      under the interpreter's recursion limit, where the retries end with
      [RecursionError]. *)

From Stdlib Require Import ZArith List String Bool Lia Floats.
Import ListNotations.

Open Scope Z_scope.

(** ** Python values used by the program *)

Inductive exn : Type :=
| ValueError          (* [Web3.to_checksum_address] on a malformed address *)
| TransportError      (* any failure of a contract [.call()] *)
| OverflowError       (* int too large to convert to float *)
| ZeroDivisionError
| IndexError
| TypeError
| OperationalError    (* sqlite3: the table cannot take another rowid *)
| RecursionError.     (* the interpreter's recursion limit is reached *)

Definition result (A : Type) : Type := (exn + A)%type.

(** The double nearest to an integer (ties to even). *)
Definition float_of_Z (z : Z) : float :=
  SF2Prim (binary_normalize prec emax z 0 false).

(** [int / float]: the integer is first converted to the nearest double; the
    conversion raises when the integer rounds beyond the largest finite
    double. *)
Definition float_of_int (z : Z) : result float :=
  if Z.abs z <? 2 ^ 1024 - 2 ^ 970
  then inr (float_of_Z z)
  else inl OverflowError.

(** Truth value of a Python float: only the two zeros are false. *)
Definition float_truthy (f : float) : bool := negb (PrimFloat.eqb f 0%float).

(** ** Configuration (lines 13-27) *)

Definition INTERVALO : Z := 300.
Definition LIMIT_REGISTROS : Z := 10000.

Definition RPC_ENDPOINTS : list string :=
  [ "https://arbitrum-one-rpc.publicnode.com";
    "https://arb1.arbitrum.io/rpc";
    "https://1rpc.io/arb";
    "https://rpc.ankr.com/arbitrum";
    "https://arbitrum.meowrpc.com" ]%string.

(** ** The observable world *)

Inductive contract : Type :=
| MORPHO_DEFAULT | AAVE_USDC | AAVE_DEBT | EULER_USDC_EARN.

(** The two functions of [ERC20_ABI], with their argument. *)
Inductive method : Type :=
| balanceOf (account : string)
| convertToAssets (shares : Z).

Inductive event : Type :=
| Call (url : string) (c : contract) (m : method)
| Sleep (seconds : Z).

Record world : Type := mkWorld {
  current_rpc_index : nat;
  provider : string;          (* the URL behind [Web3(Web3.HTTPProvider(url))] *)
  trace : list event          (* oldest action first *)
}.

Definition log (e : event) (w : world) : world :=
  {| current_rpc_index := current_rpc_index w;
     provider := provider w;
     trace := trace w ++ [e] |}.

(** ** RPC fail-over (lines 29-36) *)

Section Pool.

(** The list the cursor walks; the program uses [RPC_ENDPOINTS]. *)
Variable pool : list string.

(** Lines 29-30: index 0 and a provider on [pool[0]]. *)
Definition init_rpc : result world :=
  match nth_error pool 0 with
  | Some url => inr {| current_rpc_index := 0; provider := url; trace := [] |}
  | None => inl IndexError
  end.

Definition switch_rpc (w : world) : result world :=
  match List.length pool with
  | O => inl ZeroDivisionError
  | S _ =>
      let i := ((current_rpc_index w + 1) mod List.length pool)%nat in
      match nth_error pool i with
      | Some url =>
          inr {| current_rpc_index := i; provider := url; trace := trace w |}
      | None => inl IndexError
      end
  end.

(** [k] consecutive calls of [switch_rpc]. *)
Fixpoint switch_rpc_n (k : nat) (w : world) : result world :=
  match k with
  | O => inr w
  | S k' =>
      match switch_rpc w with
      | inr w' => switch_rpc_n k' w'
      | inl e => inl e
      end
  end.

(** The invariant set up at line 30 and kept by [switch_rpc]: the provider
    is the one built from the endpoint under the cursor. *)
Definition consistent (w : world) : Prop :=
  nth_error pool (current_rpc_index w) = Some (provider w).

End Pool.

(** ** Balance aggregation (lines 77-110) *)

(** The dictionary returned by [get_balances]. *)
Record balances : Type := mkBalances {
  morpho : float;
  aave : float;
  euler : float;
  debt : float;
  net : float
}.

(** Code that raises and acts on the world. *)
Definition M (A : Type) : Type := world -> result A * world.

Definition ret {A} (a : A) : M A := fun w => (inr a, w).

Definition lift {A} (r : result A) : M A := fun w => (r, w).

Definition bind {A B} (m : M A) (f : A -> M B) : M B :=
  fun w =>
    match m w with
    | (inr a, w') => f a w'
    | (inl e, w') => (inl e, w')
    end.

Notation "x <- m ;; k" := (bind m (fun x => k))
  (at level 61, m at next level, right associativity).

Definition sleep (seconds : Z) (w : world) : world := log (Sleep seconds) w.

(** [x / 1e6] for an integer [x]. *)
Definition div_1e6 (x : Z) : M float :=
  f <- lift (float_of_int x) ;;
  ret (f / 1e6)%float.

Section Chain.

Variable pool : list string.

(** [Web3.to_checksum_address]: [None] when it raises. *)
Variable to_checksum_address : string -> option string.

(** What the node behind [url] answers to a call made after [tick] earlier
    actions: [None] is any failure (timeout, malformed response, node
    error). *)
Variable rpc : nat -> string -> contract -> method -> option Z.

(** [contract.functions.<method>(<arg>).call()] through the current
    [provider]. *)
Definition call (c : contract) (m : method) : M Z :=
  fun w =>
    let w' := log (Call (provider w) c m) w in
    match rpc (List.length (trace w)) (provider w) c m with
    | Some v => (inr v, w')
    | None => (inl TransportError, w')
    end.

(** Lines 86-105, after the address has been checksummed. *)
Definition reads (user_address : string) : M balances :=
  morpho_shares <- call MORPHO_DEFAULT (balanceOf user_address) ;;
  morpho_assets <- call MORPHO_DEFAULT (convertToAssets morpho_shares) ;;
  aave_balance <- call AAVE_USDC (balanceOf user_address) ;;
  debt_balance <- call AAVE_DEBT (balanceOf user_address) ;;
  euler_shares <- call EULER_USDC_EARN (balanceOf user_address) ;;
  euler_assets <- call EULER_USDC_EARN (convertToAssets euler_shares) ;;
  morpho_usdc <- div_1e6 morpho_assets ;;
  aave_usdc <- div_1e6 aave_balance ;;
  debt_usdc <- div_1e6 debt_balance ;;
  euler_usdc <- div_1e6 euler_assets ;;
  let net := (morpho_usdc + aave_usdc + euler_usdc - debt_usdc)%float in
  ret {| morpho := morpho_usdc; aave := aave_usdc; euler := euler_usdc;
         debt := debt_usdc; net := net |}.

(** The [try] block: the local [user_address] is rebound to its checksummed
    form before the reads, so the value the handler passes on is the
    second component. *)
Definition attempt (user_address : string) (w : world)
  : result balances * string * world :=
  match to_checksum_address user_address with
  | None => (inl ValueError, user_address, w)
  | Some checksummed =>
      let '(r, w') := reads checksummed w in (r, checksummed, w')
  end.

(** [get_balances] with [fuel] attempts; [None] when all of them failed. An
    exception of the handler itself would reach the caller as [inl].  The
    depth of the recursion is not bounded here: see [get_balances_limited]. *)
Fixpoint get_balances (fuel : nat) (user_address : string) (w : world)
  : option (result balances * world) :=
  match fuel with
  | O => None
  | S fuel' =>
      match attempt user_address w with
      | (inr b, _, w1) => Some (inr b, w1)
      | (inl _, user_address', w1) =>
          match switch_rpc pool w1 with
          | inl e => Some (inl e, w1)
          | inr w2 => get_balances fuel' user_address' (sleep 2 w2)
          end
      end
  end.

(** The world after [k] failed attempts in a row, with the address the next
    attempt receives; [None] if one of the [k] attempts succeeds (or the
    handler raises). *)
Fixpoint after_failures (k : nat) (user_address : string) (w : world)
  : option (string * world) :=
  match k with
  | O => Some (user_address, w)
  | S k' =>
      match attempt user_address w with
      | (inr _, _, _) => None
      | (inl _, user_address', w1) =>
          match switch_rpc pool w1 with
          | inl _ => None
          | inr w2 => after_failures k' user_address' (sleep 2 w2)
          end
      end
  end.

(** The six answers a pass gets, the first at tick [n]. *)
Definition answers (n : nat) (url a : string) (ms ma ab db es ea : Z) : Prop :=
  rpc n url MORPHO_DEFAULT (balanceOf a) = Some ms /\
  rpc (1 + n) url MORPHO_DEFAULT (convertToAssets ms) = Some ma /\
  rpc (2 + n) url AAVE_USDC (balanceOf a) = Some ab /\
  rpc (3 + n) url AAVE_DEBT (balanceOf a) = Some db /\
  rpc (4 + n) url EULER_USDC_EARN (balanceOf a) = Some es /\
  rpc (5 + n) url EULER_USDC_EARN (convertToAssets es) = Some ea.

End Chain.

(** The six calls of one pass through lines 86-91. *)
Definition six_calls (url a : string) (morpho_shares euler_shares : Z)
  : list event :=
  [ Call url MORPHO_DEFAULT (balanceOf a);
    Call url MORPHO_DEFAULT (convertToAssets morpho_shares);
    Call url AAVE_USDC (balanceOf a);
    Call url AAVE_DEBT (balanceOf a);
    Call url EULER_USDC_EARN (balanceOf a);
    Call url EULER_USDC_EARN (convertToAssets euler_shares) ].

(** The world after the six calls of one pass. *)
Definition after_six (w : world) (a : string) (ms es : Z) : world :=
  {| current_rpc_index := current_rpc_index w;
     provider := provider w;
     trace := trace w ++ six_calls (provider w) a ms es |}.

Definition is_call (e : event) : bool :=
  match e with Call _ _ _ => true | Sleep _ => false end.

Definition is_sleep (e : event) : bool :=
  match e with Sleep _ => true | Call _ _ _ => false end.

(** Actions that leave the two globals alone and only add contract calls to
    the trace. *)
Definition only_calls {A} (m : M A) : Prop :=
  forall w r w',
    m w = (r, w') ->
    current_rpc_index w' = current_rpc_index w /\
    provider w' = provider w /\
    exists evs, trace w' = trace w ++ evs /\ forallb is_call evs = true.

(** Actions that add at most [n] events to the trace, all of them contract
    calls. *)
Definition calls_at_most {A} (n : nat) (m : M A) : Prop :=
  forall w r w',
    m w = (r, w') ->
    exists evs,
      trace w' = trace w ++ evs /\ forallb is_call evs = true /\
      (List.length evs <= n)%nat.

(** The 6-decimal scaling of a raw amount and the reading built from the four
    scaled amounts. *)
Definition scaled (raw : Z) : float := (float_of_Z raw / float_of_Z 1000000)%float.

Definition reading (morpho_assets aave_balance debt_balance euler_assets : Z)
  : balances :=
  let m := scaled morpho_assets in
  let a := scaled aave_balance in
  let d := scaled debt_balance in
  let e := scaled euler_assets in
  {| morpho := m; aave := a; euler := e; debt := d;
     net := (m + a + e - d)%float |}.

Definition uint256 (z : Z) : Prop := 0 <= z < 2 ^ 256.

(** *** Test doubles *)

Definition USER : string := "0x0000000000000000000000000000000000000000".

Definition any_address (s : string) : option string := Some s.

(** The mocked chain of the aggregation scenario. *)
Definition mock_rpc (tick : nat) (url : string) (c : contract) (m : method)
  : option Z :=
  match c, m with
  | MORPHO_DEFAULT, balanceOf _ => Some 100
  | MORPHO_DEFAULT, convertToAssets 100 => Some 200000000
  | AAVE_USDC, balanceOf _ => Some 50000000
  | AAVE_DEBT, balanceOf _ => Some 30000000
  | EULER_USDC_EARN, balanceOf _ => Some 10
  | EULER_USDC_EARN, convertToAssets 10 => Some 40000000
  | _, _ => None
  end.

Definition pool_ABC : list string := ["A"; "B"; "C"]%string.

(** Endpoints [A] and [B] are down, [C] answers like [mock_rpc]. *)
Definition only_C_up (tick : nat) (url : string) (c : contract) (m : method)
  : option Z :=
  if String.eqb url "C" then mock_rpc tick url c m else None.

Definition dead_rpc (tick : nat) (url : string) (c : contract) (m : method)
  : option Z := None.

Definition world_A : world :=
  {| current_rpc_index := 0; provider := "A"; trace := [] |}.

Definition world_0 : world :=
  {| current_rpc_index := 0;
     provider := "https://arbitrum-one-rpc.publicnode.com";
     trace := [] |}.

(** ** The snapshot table (lines 58-72, 112-140) *)

(** A [REAL] column: [None] is SQL [NULL]. *)
Definition sql_real : Type := option float.

(** A float bound to a [REAL] column, as a later [SELECT] reads it back: the
    sqlite3 binding stores a NaN as [NULL], SQLite keeps a real with an
    integral value as an integer, so that a negative zero comes back as
    [0.0], and every other value comes back as it was. *)
Definition bind_real (f : float) : sql_real :=
  if PrimFloat.is_nan f then None
  else if PrimFloat.eqb f 0 then Some 0%float
  else Some f.

(** A float computed by an SQL function: a NaN result is [NULL]. *)
Definition result_real (f : float) : sql_real :=
  if PrimFloat.is_nan f then None else Some f.

(** A row of [defi_snapshots]; column [x] is field [c_x]. *)
Record row : Type := mkRow {
  c_id : Z;
  c_timestamp : string;
  c_address : string;
  c_morpho : sql_real;
  c_aave : sql_real;
  c_euler : sql_real;
  c_debt : sql_real;
  c_net : sql_real
}.

(** The database file: the table, its rows in rowid order as a scan of the
    table yields them, and the AUTOINCREMENT counter kept in
    [sqlite_sequence] (the largest rowid the table ever held). *)
Record db : Type := mkDb {
  defi_snapshots : list row;
  sqlite_sequence : Z
}.

(** A database file that did not exist before line 58. *)
Definition empty_db : db := {| defi_snapshots := []; sqlite_sequence := 0 |}.

Definition max_rowid (rows : list row) : Z :=
  fold_right (fun r m => Z.max (c_id r) m) 0 rows.

Definition MAX_ROWID : Z := 2 ^ 63 - 1.

(** The rowid AUTOINCREMENT gives to the next inserted row. *)
Definition next_id (d : db) : Z :=
  Z.max (max_rowid (defi_snapshots d)) (sqlite_sequence d) + 1.

(** The row an [INSERT] with rowid [i] writes; [now] stands for
    [datetime.utcnow().isoformat()]. *)
Definition new_row (i : Z) (now address : string) (b : balances) : row :=
  {| c_id := i; c_timestamp := now; c_address := address;
     c_morpho := bind_real (morpho b);
     c_aave := bind_real (aave b);
     c_euler := bind_real (euler b);
     c_debt := bind_real (debt b);
     c_net := bind_real (net b) |}.

Definition save_snapshot (now address : string) (b : balances) (d : db)
  : result db :=
  let i := next_id d in
  if i >? MAX_ROWID then inl OperationalError
  else
    inr {| defi_snapshots := defi_snapshots d ++ [new_row i now address b];
           sqlite_sequence := i |}.

(** [ORDER BY id DESC] *)
Fixpoint insert_desc (r : row) (l : list row) : list row :=
  match l with
  | [] => [r]
  | x :: l' => if c_id x <=? c_id r then r :: l else x :: insert_desc r l'
  end.

Definition order_by_id_desc (rows : list row) : list row :=
  fold_right insert_desc [] rows.

(** [LIMIT n]: a negative [n] is no limit at all. *)
Definition sql_limit {A} (n : Z) (l : list A) : list A :=
  if n <? 0 then l else firstn (Z.to_nat n) l.

(** [SELECT COUNT( * ) FROM defi_snapshots] *)
Definition count (d : db) : Z := Z.of_nat (List.length (defi_snapshots d)).

(** [x NOT IN (ids)] *)
Definition not_in (x : Z) (ids : list Z) : bool := negb (existsb (Z.eqb x) ids).

(** [DELETE FROM t WHERE p] *)
Definition delete_where (p : row -> bool) (rows : list row) : list row :=
  filter (fun r => negb (p r)) rows.

(** Lines 127-140.  The limit is bound as a 64-bit integer: outside that
    range the binding raises before the [DELETE] and the table is left as it
    is, which is also what the function below leaves for such a limit. *)
Definition cleanup_database (limit : Z) (d : db) : db :=
  if count d >? limit then
    let top :=
      map c_id (sql_limit limit (order_by_id_desc (defi_snapshots d))) in
    {| defi_snapshots :=
         delete_where (fun r => not_in (c_id r) top) (defi_snapshots d);
       sqlite_sequence := sqlite_sequence d |}
  else d.

(** A run of [save_snapshot] calls, all of which succeed. *)
Fixpoint appends (xs : list (string * string * balances)) (d : db) : result db :=
  match xs with
  | [] => inr d
  | (now, address, b) :: xs' =>
      match save_snapshot now address b d with
      | inr d' => appends xs' d'
      | inl e => inl e
      end
  end.

(** The rows such a run adds when the first of them gets rowid [i]. *)
Fixpoint fresh_rows (i : Z) (xs : list (string * string * balances)) : list row :=
  match xs with
  | [] => []
  | (now, address, b) :: xs' => new_row i now address b :: fresh_rows (i + 1) xs'
  end.

(** Rowids are a primary key and a scan yields them in increasing order. *)
Fixpoint ascending_from (lo : Z) (rows : list row) : bool :=
  match rows with
  | [] => true
  | r :: rs => (lo <? c_id r) && ascending_from (c_id r) rs
  end.

Definition wf_db (d : db) : bool :=
  match defi_snapshots d with
  | [] => true
  | r :: rs => ascending_from (c_id r) rs
  end.

(** Ids strictly decreasing along a list of rows. *)
Fixpoint descending (rows : list row) : Prop :=
  match rows with
  | [] => True
  | r :: rs => (forall r', In r' rs -> c_id r' < c_id r) /\ descending rs
  end.

Definition min_id (d : db) : option Z :=
  match defi_snapshots d with
  | [] => None
  | r :: rs => Some (fold_right (fun x m => Z.min (c_id x) m) (c_id r) rs)
  end.

(** ** The HTTP routes (lines 165-197) *)

#[warnings="-register-all"]
Inductive json : Type :=
| JNull
| JInt (z : Z)
| JFloat (f : float)
| JString (s : string)
| JArray (l : list json)
| JObject (kv : list (string * json)).

(** A Flask response: the JSON body and the status code. *)
Definition response : Type := (json * Z)%type.

Definition jsonify (j : json) : response := (j, 200).

Definition json_real (x : sql_real) : json :=
  match x with
  | Some f => JFloat f
  | None => JNull
  end.

(** [dict(zip(keys, row))] *)
Definition row_dict (r : row) : json :=
  JObject
    [ ("id", JInt (c_id r)); ("timestamp", JString (c_timestamp r));
      ("address", JString (c_address r)); ("morpho", json_real (c_morpho r));
      ("aave", json_real (c_aave r)); ("euler", json_real (c_euler r));
      ("debt", json_real (c_debt r)); ("net", json_real (c_net r)) ]%string.

(** [cursor.fetchone()]: the first row of the result, [None] without one. *)
Definition fetchone {A} (rows : list A) : option A := hd_error rows.

Definition latest_snapshot (d : db) : response :=
  match fetchone (sql_limit 1 (order_by_id_desc (defi_snapshots d))) with
  | Some r => jsonify (row_dict r)
  | None => (JObject [("error", JString "No hay datos aún")]%string, 404)
  end.

Definition history (d : db) : response :=
  jsonify
    (JArray (map row_dict (sql_limit 50 (order_by_id_desc (defi_snapshots d))))).

(** SQL aggregates skip [NULL] and are [NULL] over no value. *)
Definition non_null (l : list sql_real) : list float :=
  flat_map (fun x => match x with Some f => [f] | None => [] end) l.

Definition sql_avg (l : list sql_real) : sql_real :=
  match non_null l with
  | [] => None
  | fs =>
      result_real (fold_left PrimFloat.add fs 0 /
                   float_of_Z (Z.of_nat (List.length fs)))%float
  end.

Definition sql_min (l : list sql_real) : sql_real :=
  match non_null l with
  | [] => None
  | f :: fs => Some (fold_left (fun m x => if PrimFloat.ltb x m then x else m) fs f)
  end.

Definition sql_max (l : list sql_real) : sql_real :=
  match non_null l with
  | [] => None
  | f :: fs => Some (fold_left (fun m x => if PrimFloat.ltb m x then x else m) fs f)
  end.

(** An aggregate query without [GROUP BY] has exactly one result row. *)
Definition select_avg_min_max (l : list sql_real)
  : list (sql_real * sql_real * sql_real) :=
  [ (sql_avg l, sql_min l, sql_max l) ].

(** The net column of the [window] highest-id rows. *)
Definition window_nets (window : Z) (d : db) : list sql_real :=
  map c_net (sql_limit window (order_by_id_desc (defi_snapshots d))).

(** Truth value of [avg_net]: [None] and zero are false. *)
Definition real_truthy (x : sql_real) : bool :=
  match x with
  | Some f => float_truthy f
  | None => false
  end.

(** [max_net - min_net]; subtracting with a [None] operand raises. *)
Definition real_sub (x y : sql_real) : result float :=
  match x, y with
  | Some a, Some b => inr (a - b)%float
  | _, _ => inl TypeError
  end.

Definition stats (d : db) : result response :=
  match fetchone (select_avg_min_max (window_nets 1000 d)) with
  | Some (avg_net, min_net, max_net) =>  (* a 3-tuple is true *)
      match
        (if real_truthy avg_net
         then match real_sub max_net min_net with
              | inr v => inr (JFloat v)
              | inl e => inl e
              end
         else inr (JInt 0))
      with
      | inr variation =>
          inr (jsonify
                 (JObject
                    [ ("average_net", json_real avg_net);
                      ("min_net", json_real min_net);
                      ("max_net", json_real max_net);
                      ("variation", variation) ]%string))
      | inl e => inl e
      end
  | None => inr (JObject [("error", JString "No hay datos suficientes")]%string, 404)
  end.

(** *** Test data *)

Definition mock_reading : balances :=
  {| morpho := 200; aave := 50; euler := 40; debt := 30; net := 260 |}.

(** Ten thousand and five snapshots for a new database. *)
Definition snapshots_10005 : list (string * string * balances) :=
  repeat ("2026-01-01T00:00:00"%string, USER, mock_reading) (Z.to_nat 10005).

(** Two snapshots whose net values cancel out: a debt of 5 USDC and nothing
    else, then 5 USDC in Morpho and nothing else. *)
Definition plus_minus : list (string * string * balances) :=
  [ ("2026-01-01T00:00:00"%string, USER, reading 0 0 5000000 0);
    ("2026-01-01T00:05:00"%string, USER, reading 5000000 0 0 0) ].

Definition db_plus_minus : db :=
  {| defi_snapshots := fresh_rows 1 plus_minus; sqlite_sequence := 2 |}.

(** ** The robot thread (lines 145-154) *)

(** The counter of [sqlite_sequence] is at least every rowid of the table. *)
Definition seq_ok (d : db) : bool :=
  max_rowid (defi_snapshots d) <=? sqlite_sequence d.

(** The last [n] elements of a list. *)
Definition last_n {A} (n : nat) (l : list A) : list A :=
  skipn (List.length l - n) l.

(** The writes of the program to the table, in any order. *)
Inductive op : Type :=
| Save (now address : string) (b : balances)
| Cleanup (limit : Z).

Fixpoint run (ops : list op) (d : db) : result db :=
  match ops with
  | [] => inr d
  | Save now address b :: ops' =>
      match save_snapshot now address b d with
      | inr d' => run ops' d'
      | inl e => inl e
      end
  | Cleanup limit :: ops' => run ops' (cleanup_database limit d)
  end.

Fixpoint count_saves (ops : list op) : Z :=
  match ops with
  | [] => 0
  | Save _ _ _ :: ops' => 1 + count_saves ops'
  | Cleanup _ :: ops' => count_saves ops'
  end.

(** A run of [save_snapshot] calls each followed by [cleanup_database], as
    the robot makes them. *)
Fixpoint appends_pruned (limit : Z) (xs : list (string * string * balances))
    (d : db) : result db :=
  match xs with
  | [] => inr d
  | (now, address, b) :: xs' =>
      match save_snapshot now address b d with
      | inr d' => appends_pruned limit xs' (cleanup_database limit d')
      | inl e => inl e
      end
  end.

Section Robot.

Variable pool : list string.
Variable to_checksum_address : string -> option string.
Variable rpc : nat -> string -> contract -> method -> option Z.

(** The address the robot polls; the program reads it from the environment
    into [USER]. *)
Variable user : string.

(** One pass through the body of [while True]: [fuel] bounds the attempts of
    [get_balances] and [now] is the time stamp of the snapshot.  Whatever is
    raised inside the [try] is caught, and the pass ends with the sleep of
    [INTERVALO] seconds.  [None] when [get_balances] is still retrying; the
    pass under the recursion limit is [robot_cycle_limited]. *)
Definition robot_cycle (fuel : nat) (now : string) (s : world * db)
  : option (world * db) :=
  let '(w, d) := s in
  match get_balances pool to_checksum_address rpc fuel user w with
  | None => None
  | Some (inr b, w1) =>
      match save_snapshot now user b d with
      | inr d1 =>
          Some (sleep INTERVALO w1, cleanup_database LIMIT_REGISTROS d1)
      | inl _ => Some (sleep INTERVALO w1, d)
      end
  | Some (inl _, w1) => Some (sleep INTERVALO w1, d)
  end.

End Robot.

(** ** The recursion limit *)

Section Limit.

Variable pool : list string.
Variable to_checksum_address : string -> option string.
Variable rpc : nat -> string -> contract -> method -> option Z.

(** The depth of Python frames that building
    [Web3(Web3.HTTPProvider(url))] needs below the frame of [switch_rpc]; it
    belongs to the web3 library. *)
Variable provider_depth : nat.

(** The body of [switch_rpc] with room for [room] more nested frames: the
    outcome ([None] when it returns, the exception when it raises) and the
    globals as it leaves them.  The index is assigned before the provider
    is built. *)
Definition switch_rpc_in (room : nat) (w : world) : option exn * world :=
  match List.length pool with
  | O => (Some ZeroDivisionError, w)
  | S _ =>
      let i := ((current_rpc_index w + 1) mod List.length pool)%nat in
      let w1 :=
        {| current_rpc_index := i; provider := provider w; trace := trace w |} in
      match nth_error pool i with
      | None => (Some IndexError, w1)
      | Some url =>
          if (room <? provider_depth)%nat then (Some RecursionError, w1)
          else
            (None,
             {| current_rpc_index := i; provider := url; trace := trace w |})
      end
  end.

(** [get_balances] called where the interpreter allows [stack] more nested
    frames below the frame of the call.  The handler formats
    [RPC_ENDPOINTS[current_rpc_index]] for its message, calls [switch_rpc]
    (one frame), sleeps, and calls [get_balances] again (one frame): every
    retry runs one frame deeper.  What is raised in the handler reaches the
    caller.  A library call of the [try] block that runs out of stack raises
    inside the block and is caught like any other failure; it is one of the
    failures [rpc]'s [None] stands for. *)
Fixpoint get_balances_limited (stack : nat) (user_address : string) (w : world)
  : result balances * world :=
  match attempt to_checksum_address rpc user_address w with
  | (inr b, _, w1) => (inr b, w1)
  | (inl _, user_address', w1) =>
      match nth_error pool (current_rpc_index w1) with
      | None => (inl IndexError, w1)
      | Some _ =>
          match stack with
          | O => (inl RecursionError, w1)
          | S room =>
              match switch_rpc_in room w1 with
              | (Some e, w2) => (inl e, w2)
              | (None, w2) =>
                  get_balances_limited room user_address' (sleep 2 w2)
              end
          end
      end
  end.

(** The cursor is inside the pool and the provider was built from one of its
    endpoints. *)
Definition in_pool (w : world) : Prop :=
  (current_rpc_index w < List.length pool)%nat /\ In (provider w) pool.

Variable user : string.

(** One pass through the body of [while True] (lines 147-154), the frame of
    [robot_loop] having room for [stack] frames below the calls it makes:
    whatever [get_balances] or [save_snapshot] raises is caught, and the pass
    ends with the sleep of [INTERVALO] seconds. *)
Definition robot_cycle_limited (stack : nat) (now : string) (s : world * db)
  : world * db :=
  let '(w, d) := s in
  match get_balances_limited stack user w with
  | (inr b, w1) =>
      match save_snapshot now user b d with
      | inr d1 => (sleep INTERVALO w1, cleanup_database LIMIT_REGISTROS d1)
      | inl _ => (sleep INTERVALO w1, d)
      end
  | (inl _, w1) => (sleep INTERVALO w1, d)
  end.

(** As many passes as [nows] has time stamps. *)
Fixpoint robot_loop (stack : nat) (nows : list string) (s : world * db)
  : world * db :=
  match nows with
  | [] => s
  | now :: nows' => robot_loop stack nows' (robot_cycle_limited stack now s)
  end.

End Limit.

(** *** More test data *)

(** A table of 1002 rows. *)
Definition db_1002 : db :=
  {| defi_snapshots :=
       fresh_rows 1
         (repeat ("2026-01-01T00:00:00"%string, USER, mock_reading)
            (Z.to_nat 1002));
     sqlite_sequence := 1002 |}.

(** No address is well formed. *)
Definition no_address (s : string) : option string := None.


(** * Properties *)

(** ** The fail-over cursor *)

Lemma consistent_lt pool w :
  consistent pool w -> (current_rpc_index w < List.length pool)%nat.
Proof.
  unfold consistent. intros H. apply nth_error_Some. rewrite H. discriminate.
Qed.

Lemma switch_rpc_ok pool w :
  pool <> [] ->
  exists url,
    nth_error pool ((current_rpc_index w + 1) mod List.length pool)%nat = Some url /\
    switch_rpc pool w =
      inr {| current_rpc_index := ((current_rpc_index w + 1) mod List.length pool)%nat;
             provider := url; trace := trace w |}.
Proof.
  intros Hne. unfold switch_rpc.
  assert (Hpos : (0 < List.length pool)%nat).
  { destruct pool; [congruence | cbn; lia]. }
  assert (Hlt : ((current_rpc_index w + 1) mod List.length pool < List.length pool)%nat).
  { apply Nat.mod_upper_bound. lia. }
  destruct (List.length pool) as [|m'] eqn:Hm; [lia|]. rewrite <- Hm in *.
  destruct (nth_error pool ((current_rpc_index w + 1) mod List.length pool)%nat)
    as [url|] eqn:Hn.
  - exists url. auto.
  - apply nth_error_None in Hn. lia.
Qed.

Lemma switch_rpc_inv pool w w' :
  switch_rpc pool w = inr w' ->
  current_rpc_index w' = ((current_rpc_index w + 1) mod List.length pool)%nat /\
  consistent pool w' /\ trace w' = trace w.
Proof.
  unfold switch_rpc, consistent. destruct (List.length pool); [discriminate|].
  destruct (nth_error pool _) eqn:Hn; [|discriminate].
  intros [= <-]. cbn. auto.
Qed.

Lemma switch_rpc_n_index pool k : forall w,
  pool <> [] -> (current_rpc_index w < List.length pool)%nat ->
  exists wk,
    switch_rpc_n pool k w = inr wk /\
    current_rpc_index wk = ((current_rpc_index w + k) mod List.length pool)%nat /\
    trace wk = trace w /\
    (consistent pool w -> consistent pool wk).
Proof.
  induction k as [|k IH]; intros w Hne Hlt.
  - exists w. cbn. rewrite Nat.add_0_r, Nat.mod_small by exact Hlt. auto.
  - destruct (switch_rpc_ok pool w Hne) as (url & Hurl & Hsw).
    cbn [switch_rpc_n]. rewrite Hsw.
    set (w1 := {| current_rpc_index := _; provider := url; trace := trace w |}).
    assert (Hlt1 : (current_rpc_index w1 < List.length pool)%nat).
    { cbn. apply Nat.mod_upper_bound. lia. }
    destruct (IH w1 Hne Hlt1) as (wk & Hk & Hidx & Htr & Hcons).
    exists wk. repeat split.
    + exact Hk.
    + rewrite Hidx. cbn [current_rpc_index w1].
      rewrite Nat.Div0.add_mod_idemp_l. f_equal. lia.
    + exact Htr.
    + intros _. apply Hcons. exact Hurl.
Qed.

(** Walking [k] steps round a ring of [m] places ends where it started
    exactly when [m] divides [k]. *)
Lemma ring_return (m i k : nat) :
  (i < m)%nat -> (((i + k) mod m)%nat = i <-> (k mod m)%nat = O).
Proof.
  intros Hi.
  assert (Hm : m <> O) by lia.
  rewrite <- (Nat.Div0.add_mod_idemp_r i k m).
  pose proof (Nat.mod_upper_bound k m Hm) as Hr.
  set (r := (k mod m)%nat) in *.
  destruct (Nat.ltb_spec (i + r) m) as [Hs|Hs].
  - rewrite Nat.mod_small by exact Hs. lia.
  - assert (E : ((i + r) mod m = i + r - m)%nat).
    { symmetry. apply (Nat.mod_unique (i + r) m 1); lia. }
    rewrite E. lia.
Qed.

(** From a cursor on the active endpoint, where [k] calls of [switch_rpc]
    lead. *)
Lemma switch_rpc_n_returns pool w k :
  consistent pool w ->
  exists wk,
    switch_rpc_n pool k w = inr wk /\
    nth_error pool (current_rpc_index wk) = Some (provider wk) /\
    (current_rpc_index wk = current_rpc_index w <->
     (k mod List.length pool)%nat = O) /\
    ((k mod List.length pool)%nat = O -> provider wk = provider w) /\
    (NoDup pool ->
     (provider wk = provider w <-> (k mod List.length pool)%nat = O)).
Proof.
  intros Hc.
  pose proof (consistent_lt pool w Hc) as Hlt.
  assert (Hne : pool <> []) by (destruct pool; [cbn in Hlt; lia | discriminate]).
  destruct (switch_rpc_n_index pool k w Hne Hlt) as (wk & Hk & Hidx & _ & Hck).
  specialize (Hck Hc).
  assert (Hret : current_rpc_index wk = current_rpc_index w <->
                 (k mod List.length pool)%nat = O).
  { rewrite Hidx. apply ring_return. exact Hlt. }
  assert (Hback : (k mod List.length pool)%nat = O -> provider wk = provider w).
  { intros Hk0. apply Hret in Hk0. unfold consistent in *.
    rewrite Hk0 in Hck. congruence. }
  exists wk. split; [exact Hk|]. split; [exact Hck|].
  split; [exact Hret|]. split; [exact Hback|].
  intros Hnd. split; [|exact Hback].
  intros Hp. apply Hret.
  apply (proj1 (NoDup_nth_error pool) Hnd); [apply consistent_lt; exact Hck|].
  unfold consistent in *. congruence.
Qed.

(** C6. On a non-empty pool [switch_rpc] moves the cursor to
    [(index + 1) mod m] and puts the provider on the endpoint at the new
    index.  From a cursor that points at the active endpoint, [k] calls bring
    the cursor back to where it was exactly when [m] divides [k]; the active
    endpoint is then the original one again and, the endpoints of the pool
    being pairwise distinct, at no other [k]. *)
Theorem switch_rpc_round_robin (pool : list string) (w : world) :
  pool <> [] ->
  (exists w1,
     switch_rpc pool w = inr w1 /\
     current_rpc_index w1 = ((current_rpc_index w + 1) mod List.length pool)%nat /\
     nth_error pool (current_rpc_index w1) = Some (provider w1)) /\
  (consistent pool w ->
   forall k, exists wk,
     switch_rpc_n pool k w = inr wk /\
     nth_error pool (current_rpc_index wk) = Some (provider wk) /\
     (current_rpc_index wk = current_rpc_index w <->
      (k mod List.length pool)%nat = O) /\
     ((k mod List.length pool)%nat = O -> provider wk = provider w) /\
     (NoDup pool ->
      (provider wk = provider w <-> (k mod List.length pool)%nat = O))).
Proof.
  intros Hne. split.
  - destruct (switch_rpc_ok pool w Hne) as (url & Hurl & Hsw).
    eexists. split; [exact Hsw|]. cbn. auto.
  - intros Hc k. apply switch_rpc_n_returns. exact Hc.
Qed.

Lemma switch_rpc_round_robin_witness :
  pool_ABC <> [] /\ consistent pool_ABC world_A /\
  exists wk,
    switch_rpc_n pool_ABC 3 world_A = inr wk /\ provider wk = provider world_A.
Proof.
  assert (Hne : pool_ABC <> []) by discriminate.
  assert (Hc : consistent pool_ABC world_A) by reflexivity.
  split; [exact Hne|]. split; [exact Hc|].
  destruct (proj2 (switch_rpc_round_robin pool_ABC world_A Hne) Hc 3%nat)
    as (wk & Hk & _ & _ & Hback & _).
  exists wk. split; [exact Hk|]. apply Hback. reflexivity.
Defined.

(** The fail-over scenario: from [A], two failures leave [C] active and a
    third one returns to [A]. *)
Example pool_ABC_failures :
  switch_rpc_n pool_ABC 2 world_A =
    inr {| current_rpc_index := 2; provider := "C"; trace := [] |} /\
  switch_rpc_n pool_ABC 3 world_A = inr world_A.
Proof. split; reflexivity. Qed.

(** The configured pool has five pairwise distinct endpoints. *)
Lemma RPC_ENDPOINTS_NoDup : NoDup RPC_ENDPOINTS /\ List.length RPC_ENDPOINTS = 5%nat.
Proof.
  split; [|reflexivity].
  unfold RPC_ENDPOINTS.
  repeat (constructor; [cbn; intuition discriminate|]). constructor.
Qed.

(** With the configured pool, the provider the program starts on is active
    again after [k] failures exactly when [k] is a multiple of five. *)
Lemma RPC_ENDPOINTS_round_robin k :
  exists wk,
    switch_rpc_n RPC_ENDPOINTS k world_0 = inr wk /\
    (provider wk = provider world_0 <-> (k mod 5)%nat = O).
Proof.
  destruct (switch_rpc_n_returns RPC_ENDPOINTS world_0 k eq_refl)
    as (wk & Hk & _ & _ & _ & Hiff).
  exists wk. split; [exact Hk|]. exact (Hiff (proj1 RPC_ENDPOINTS_NoDup)).
Qed.

(** ** The balance aggregation *)

Lemma float_of_int_uint256 z : uint256 z -> float_of_int z = inr (float_of_Z z).
Proof.
  unfold uint256, float_of_int, float_of_Z. intros [Hlo Hhi].
  assert (Hb : 2 ^ 256 < 2 ^ 1024 - 2 ^ 970) by (vm_compute; reflexivity).
  set (B := 2 ^ 256) in *. set (T := 2 ^ 1024 - 2 ^ 970) in *.
  assert (Ht : (Z.abs z <? T) = true) by (apply Z.ltb_lt; lia).
  rewrite Ht. reflexivity.
Qed.

Lemma float_of_int_value z f : float_of_int z = inr f -> f = float_of_Z z.
Proof.
  unfold float_of_int, float_of_Z.
  destruct (Z.abs z <? _).
  - intros E. injection E as <-. reflexivity.
  - discriminate.
Qed.

(** The literal [1e6] is the integer 1,000,000. *)
Lemma literal_1e6 : 1e6%float = float_of_Z 1000000.
Proof. vm_compute. reflexivity. Qed.

Lemma bind_ok {A B} (m : M A) (f : A -> M B) w a w1 :
  m w = (inr a, w1) -> bind m f w = f a w1.
Proof. unfold bind. now intros ->. Qed.

Lemma bind_inr {A B} (m : M A) (f : A -> M B) w b w' :
  bind m f w = (inr b, w') ->
  exists a w1, m w = (inr a, w1) /\ f a w1 = (inr b, w').
Proof.
  unfold bind. destruct (m w) as [[e|a] w1]; [discriminate|].
  intros H. now exists a, w1.
Qed.

Lemma div_1e6_inr x w f w' :
  div_1e6 x w = (inr f, w') -> f = scaled x /\ w' = w.
Proof.
  unfold div_1e6, bind, lift, ret, scaled. rewrite <- literal_1e6.
  destruct (float_of_int x) as [e|g] eqn:Hg; [discriminate|].
  intros E. injection E as <- <-.
  now rewrite (float_of_int_value _ _ Hg).
Qed.

Lemma div_1e6_uint256 x w : uint256 x -> div_1e6 x w = (inr (scaled x), w).
Proof.
  intros H. unfold div_1e6, bind, lift, ret, scaled.
  rewrite (float_of_int_uint256 _ H), literal_1e6. reflexivity.
Qed.

Lemma length_trace_log e w :
  List.length (trace (log e w)) = S (List.length (trace w)).
Proof. cbn. apply last_length. Qed.

Lemma only_calls_ret {A} (a : A) : only_calls (ret a).
Proof.
  intros w r w' E. injection E as <- <-. repeat split.
  exists []. now rewrite app_nil_r.
Qed.

Lemma only_calls_bind {A B} (m : M A) (f : A -> M B) :
  only_calls m -> (forall a, only_calls (f a)) -> only_calls (bind m f).
Proof.
  intros Hm Hf w r w'. unfold bind.
  destruct (m w) as [[e|a] w1] eqn:E1; specialize (Hm _ _ _ E1).
  - intros E. injection E as <- <-. exact Hm.
  - intros E2. specialize (Hf a _ _ _ E2).
    destruct Hm as (Hi & Hp & evs1 & Ht1 & Hc1).
    destruct Hf as (Hi2 & Hp2 & evs2 & Ht2 & Hc2).
    repeat split; try congruence.
    exists (evs1 ++ evs2). rewrite Ht2, Ht1, app_assoc. split; [reflexivity|].
    rewrite forallb_app, Hc1, Hc2. reflexivity.
Qed.

Lemma only_calls_div_1e6 x : only_calls (div_1e6 x).
Proof.
  intros w r w'. unfold div_1e6, bind, lift, ret.
  destruct (float_of_int x); intros E; injection E as <- <-;
    (repeat split; exists []; now rewrite app_nil_r).
Qed.

Section ChainFacts.

Variable pool : list string.
Variable to_checksum_address : string -> option string.
Variable rpc : nat -> string -> contract -> method -> option Z.

Lemma call_ok c m w v :
  rpc (List.length (trace w)) (provider w) c m = Some v ->
  call rpc c m w = (inr v, log (Call (provider w) c m) w).
Proof. unfold call. now intros ->. Qed.

Lemma call_inr c m w v w' :
  call rpc c m w = (inr v, w') ->
  rpc (List.length (trace w)) (provider w) c m = Some v /\
  w' = log (Call (provider w) c m) w.
Proof.
  unfold call. destruct (rpc _ _ c m) as [v'|]; [|discriminate].
  intros E. injection E as <- <-. auto.
Qed.

Lemma only_calls_call c m : only_calls (call rpc c m).
Proof.
  intros w r w'. unfold call.
  destruct (rpc _ _ c m); intros E; injection E as <- <-;
    (repeat split; eexists; split; [reflexivity|reflexivity]).
Qed.

Lemma only_calls_reads a : only_calls (reads rpc a).
Proof.
  unfold reads.
  repeat (apply only_calls_bind;
          [first [apply only_calls_call | apply only_calls_div_1e6] | intro]).
  apply only_calls_ret.
Qed.

Lemma log_six w a ms es :
  log (Call (provider w) EULER_USDC_EARN (convertToAssets es))
    (log (Call (provider w) EULER_USDC_EARN (balanceOf a))
       (log (Call (provider w) AAVE_DEBT (balanceOf a))
          (log (Call (provider w) AAVE_USDC (balanceOf a))
             (log (Call (provider w) MORPHO_DEFAULT (convertToAssets ms))
                (log (Call (provider w) MORPHO_DEFAULT (balanceOf a)) w)))))
  = after_six w a ms es.
Proof.
  unfold after_six, log, six_calls. cbn [current_rpc_index provider trace].
  f_equal. rewrite <- !app_assoc. reflexivity.
Qed.

Lemma reads_ok a w ms ma ab db es ea :
  answers rpc (List.length (trace w)) (provider w) a ms ma ab db es ea ->
  uint256 ma -> uint256 ab -> uint256 db -> uint256 ea ->
  reads rpc a w = (inr (reading ma ab db ea), after_six w a ms es).
Proof.
  intros (H1 & H2 & H3 & H4 & H5 & H6) Uma Uab Udb Uea.
  cbn [Nat.add] in *.
  unfold reads.
  erewrite bind_ok by (apply call_ok; exact H1).
  erewrite bind_ok
    by (apply call_ok; rewrite length_trace_log; exact H2).
  erewrite bind_ok
    by (apply call_ok; do 2 rewrite length_trace_log; exact H3).
  erewrite bind_ok
    by (apply call_ok; do 3 rewrite length_trace_log; exact H4).
  erewrite bind_ok
    by (apply call_ok; do 4 rewrite length_trace_log; exact H5).
  erewrite bind_ok
    by (apply call_ok; do 5 rewrite length_trace_log; exact H6).
  cbn [provider log].
  rewrite (bind_ok _ _ _ _ _ (div_1e6_uint256 _ _ Uma)).
  rewrite (bind_ok _ _ _ _ _ (div_1e6_uint256 _ _ Uab)).
  rewrite (bind_ok _ _ _ _ _ (div_1e6_uint256 _ _ Udb)).
  rewrite (bind_ok _ _ _ _ _ (div_1e6_uint256 _ _ Uea)).
  unfold ret, reading. f_equal.
  rewrite <- (log_six w a ms es). reflexivity.
Qed.

Lemma reads_inr a w b w' :
  reads rpc a w = (inr b, w') ->
  exists ms ma ab db es ea,
    answers rpc (List.length (trace w)) (provider w) a ms ma ab db es ea /\
    b = reading ma ab db ea /\
    w' = after_six w a ms es.
Proof.
  unfold reads. intros H.
  apply bind_inr in H. destruct H as (ms & w1 & C1 & H).
  apply call_inr in C1. destruct C1 as [R1 ->].
  apply bind_inr in H. destruct H as (ma & w2 & C2 & H).
  apply call_inr in C2. destruct C2 as [R2 ->].
  apply bind_inr in H. destruct H as (ab & w3 & C3 & H).
  apply call_inr in C3. destruct C3 as [R3 ->].
  apply bind_inr in H. destruct H as (db & w4 & C4 & H).
  apply call_inr in C4. destruct C4 as [R4 ->].
  apply bind_inr in H. destruct H as (es & w5 & C5 & H).
  apply call_inr in C5. destruct C5 as [R5 ->].
  apply bind_inr in H. destruct H as (ea & w6 & C6 & H).
  apply call_inr in C6. destruct C6 as [R6 ->].
  apply bind_inr in H. destruct H as (f1 & w7 & D1 & H).
  apply div_1e6_inr in D1. destruct D1 as [-> ->].
  apply bind_inr in H. destruct H as (f2 & w8 & D2 & H).
  apply div_1e6_inr in D2. destruct D2 as [-> ->].
  apply bind_inr in H. destruct H as (f3 & w9 & D3 & H).
  apply div_1e6_inr in D3. destruct D3 as [-> ->].
  apply bind_inr in H. destruct H as (f4 & w10 & D4 & H).
  apply div_1e6_inr in D4. destruct D4 as [-> ->].
  unfold ret in H. injection H as <- <-.
  rewrite !length_trace_log in *. cbn [provider log] in *.
  exists ms, ma, ab, db, es, ea. split; [|split].
  - unfold answers. cbn [Nat.add]. auto 10.
  - reflexivity.
  - rewrite <- (log_six w a ms es). reflexivity.
Qed.

Lemma attempt_inr a w b a' w' :
  attempt to_checksum_address rpc a w = (inr b, a', w') ->
  to_checksum_address a = Some a' /\ reads rpc a' w = (inr b, w').
Proof.
  unfold attempt. destruct (to_checksum_address a) as [c|]; [|discriminate].
  destruct (reads rpc c w) as [r w1] eqn:E1. intros E.
  injection E as -> -> ->. auto.
Qed.

Lemma attempt_ok a a' w b w' :
  to_checksum_address a = Some a' -> reads rpc a' w = (inr b, w') ->
  attempt to_checksum_address rpc a w = (inr b, a', w').
Proof. unfold attempt. now intros -> ->. Qed.

Lemma attempt_only_calls a w r a' w' :
  attempt to_checksum_address rpc a w = (r, a', w') ->
  current_rpc_index w' = current_rpc_index w /\
  provider w' = provider w /\
  exists evs, trace w' = trace w ++ evs /\ forallb is_call evs = true.
Proof.
  unfold attempt. destruct (to_checksum_address a) as [c|].
  - destruct (reads rpc c w) as [r1 w1] eqn:E1. intros E.
    injection E as <- <- <-. exact (only_calls_reads c _ _ _ E1).
  - intros E. injection E as <- <- <-. repeat split.
    exists []. now rewrite app_nil_r.
Qed.


Lemma after_failures_get_balances : forall k a w a' w0,
  after_failures pool to_checksum_address rpc k a w = Some (a', w0) ->
  forall fuel,
    get_balances pool to_checksum_address rpc (k + fuel) a w =
    get_balances pool to_checksum_address rpc fuel a' w0.
Proof.
  induction k as [|k IH]; intros a w a' w0 H fuel.
  - cbn in H. injection H as <- <-. reflexivity.
  - cbn [after_failures] in H. cbn [Nat.add get_balances].
    destruct (attempt to_checksum_address rpc a w) as [[[e1|b] a1] w1];
      [|discriminate].
    destruct (switch_rpc pool w1) as [e2|w2]; [discriminate|].
    apply IH. exact H.
Qed.

(** [k] failures move the cursor [k] places and cost [k] sleeps of two
    seconds each. *)
Lemma after_failures_world : forall k a w a' w0,
  after_failures pool to_checksum_address rpc k a w = Some (a', w0) ->
  ((current_rpc_index w < List.length pool)%nat ->
   current_rpc_index w0 = ((current_rpc_index w + k) mod List.length pool)%nat) /\
  (consistent pool w -> consistent pool w0) /\
  exists evs,
    trace w0 = trace w ++ evs /\
    filter is_sleep evs = repeat (Sleep 2) k.
Proof.
  induction k as [|k IH]; intros a w a' w0 H.
  - cbn in H. injection H as <- <-. split; [|split].
    + intros Hlt. now rewrite Nat.add_0_r, Nat.mod_small.
    + auto.
    + exists []. now rewrite app_nil_r.
  - cbn [after_failures] in H.
    destruct (attempt to_checksum_address rpc a w) as [[[e1|b] a1] w1] eqn:Ha;
      [|discriminate].
    destruct (attempt_only_calls _ _ _ _ _ Ha) as (Hi & Hp & evs1 & Ht1 & Hc1).
    destruct (switch_rpc pool w1) as [e2|w2] eqn:Hsw; [discriminate|].
    destruct (switch_rpc_inv _ _ _ Hsw) as (Hi2 & Hcons2 & Ht2).
    destruct (IH _ _ _ _ H) as (Hidx & Hcons & evs & Ht & Hs).
    split; [|split].
    + intros Hlt. rewrite Hidx.
      * cbn [sleep log current_rpc_index]. rewrite Hi2, Hi.
        rewrite Nat.Div0.add_mod_idemp_l. f_equal. lia.
      * apply consistent_lt. exact Hcons2.
    + intros _. apply Hcons. exact Hcons2.
    + exists (evs1 ++ Sleep 2 :: evs). split.
      * rewrite Ht. cbn [sleep log trace]. rewrite Ht2, Ht1.
        rewrite <- !app_assoc. reflexivity.
      * rewrite filter_app. cbn [filter is_sleep]. rewrite Hs.
        assert (Hnone : filter is_sleep evs1 = []).
        { clear -Hc1. induction evs1 as [|x l IHl]; [reflexivity|].
          cbn in Hc1. apply andb_prop in Hc1. destruct Hc1 as [Hx Hl].
          destruct x; [|discriminate]. cbn. auto. }
        rewrite Hnone. reflexivity.
Qed.

(** A returned reading comes from an attempt that succeeded after some
    number of failed ones. *)
Lemma get_balances_inr : forall fuel a w b w',
  get_balances pool to_checksum_address rpc fuel a w = Some (inr b, w') ->
  exists k a' w0 a'',
    (k < fuel)%nat /\
    after_failures pool to_checksum_address rpc k a w = Some (a', w0) /\
    attempt to_checksum_address rpc a' w0 = (inr b, a'', w').
Proof.
  induction fuel as [|fuel IH]; intros a w b w' H; [discriminate|].
  cbn [get_balances] in H.
  destruct (attempt to_checksum_address rpc a w) as [[[e1|b1] a1] w1] eqn:Ha.
  - destruct (switch_rpc pool w1) as [e2|w2] eqn:Hsw; [discriminate|].
    destruct (IH _ _ _ _ H) as (k & a' & w0 & a'' & Hk & Haf & Hat).
    exists (S k), a', w0, a''. split; [lia|]. split; [|exact Hat].
    cbn [after_failures]. rewrite Ha, Hsw. exact Haf.
  - injection H as <- <-. exists O, a, w, a1. split; [lia|]. split; auto.
Qed.

End ChainFacts.



(** The aggregation scenario, run on the mocked chain. *)
Example get_balances_mock :
  get_balances RPC_ENDPOINTS any_address mock_rpc 1 USER world_0 =
    Some (inr mock_reading, after_six world_0 USER 100 10).
Proof. vm_compute. reflexivity. Qed.

(** ** The retries under the recursion limit *)

Lemma filter_is_sleep_calls evs :
  forallb is_call evs = true -> filter is_sleep evs = [].
Proof.
  induction evs as [|x l IH]; [reflexivity|]. cbn. intros H.
  apply andb_prop in H. destruct H as [Hx Hl].
  destruct x; [|discriminate]. cbn. auto.
Qed.

Section LimitFacts.

Variable pool : list string.
Variable to_checksum_address : string -> option string.
Variable rpc : nat -> string -> contract -> method -> option Z.
Variable provider_depth : nat.

(** What [switch_rpc] does with [room] frames below its own: too little room
    for the provider leaves the new index with the old provider. *)
Lemma switch_rpc_in_cases room w :
  pool <> [] ->
  exists url,
    nth_error pool ((current_rpc_index w + 1) mod List.length pool)%nat = Some url /\
    switch_rpc_in pool provider_depth room w =
      if (room <? provider_depth)%nat
      then (Some RecursionError,
            {| current_rpc_index :=
                 ((current_rpc_index w + 1) mod List.length pool)%nat;
               provider := provider w; trace := trace w |})
      else (None,
            {| current_rpc_index :=
                 ((current_rpc_index w + 1) mod List.length pool)%nat;
               provider := url; trace := trace w |}).
Proof.
  intros Hne. unfold switch_rpc_in.
  destruct (switch_rpc_ok pool w Hne) as (url & Hurl & _).
  exists url. split; [exact Hurl|].
  destruct (List.length pool) as [|m'] eqn:Hm.
  - destruct pool; [congruence | discriminate].
  - rewrite Hurl. reflexivity.
Qed.

(** When it returns, it has done what [switch_rpc] does. *)
Lemma switch_rpc_in_done room w w2 :
  switch_rpc_in pool provider_depth room w = (None, w2) ->
  switch_rpc pool w = inr w2 /\ (provider_depth <= room)%nat.
Proof.
  unfold switch_rpc_in, switch_rpc.
  destruct (List.length pool); [discriminate|].
  destruct (nth_error pool _); [|discriminate].
  destruct (Nat.ltb_spec room provider_depth); [discriminate|].
  intros E. injection E as <-. auto.
Qed.

Lemma in_pool_nonempty w : in_pool pool w -> pool <> [].
Proof. intros [Hlt _] ->. cbn in Hlt. lia. Qed.

Lemma in_pool_sleep s w : in_pool pool w -> in_pool pool (sleep s w).
Proof. exact (fun H => H). Qed.

Lemma consistent_in_pool w : consistent pool w -> in_pool pool w.
Proof.
  intros Hc. split; [exact (consistent_lt _ _ Hc)|].
  exact (nth_error_In _ _ Hc).
Qed.

Lemma switch_rpc_in_in_pool room w o w2 :
  in_pool pool w ->
  switch_rpc_in pool provider_depth room w = (o, w2) ->
  in_pool pool w2 /\ trace w2 = trace w.
Proof.
  intros Hin H.
  destruct (switch_rpc_in_cases room w (in_pool_nonempty _ Hin))
    as (url & Hurl & Hsw).
  rewrite Hsw in H.
  assert (Hlt : ((current_rpc_index w + 1) mod List.length pool
                 < List.length pool)%nat).
  { apply nth_error_Some. rewrite Hurl. discriminate. }
  destruct (room <? provider_depth)%nat; injection H as <- <-;
    (split; [split; cbn|reflexivity]); auto.
  - exact (proj2 Hin).
  - exact (nth_error_In _ _ Hurl).
Qed.

Lemma attempt_in_pool a w r a1 w1 :
  attempt to_checksum_address rpc a w = (r, a1, w1) ->
  in_pool pool w -> in_pool pool w1.
Proof.
  intros Hat [Hlt Hp].
  destruct (attempt_only_calls _ _ _ _ _ _ _ Hat) as (Hi & Hpr & _).
  unfold in_pool. now rewrite Hi, Hpr.
Qed.

(** Whatever its outcome, a call leaves the cursor inside the pool and a
    provider built from one of its endpoints. *)
Lemma get_balances_limited_in_pool : forall stack a w r w',
  get_balances_limited pool to_checksum_address rpc provider_depth stack a w
    = (r, w') ->
  in_pool pool w -> in_pool pool w'.
Proof.
  induction stack as [|room IH]; intros a w r w' H Hin;
    cbn [get_balances_limited] in H;
    destruct (attempt to_checksum_address rpc a w) as [[[e|b] a1] w1] eqn:Hat;
    pose proof (attempt_in_pool _ _ _ _ _ Hat Hin) as Hin1;
    try (injection H as <- <-; exact Hin1).
  - destruct (nth_error pool (current_rpc_index w1));
      injection H as <- <-; exact Hin1.
  - destruct (nth_error pool (current_rpc_index w1));
      [|injection H as <- <-; exact Hin1].
    destruct (switch_rpc_in pool provider_depth room w1) as [[e2|] w2] eqn:Hsw;
      destruct (switch_rpc_in_in_pool _ _ _ _ Hin1 Hsw) as (Hin2 & _).
    + injection H as <- <-. exact Hin2.
    + exact (IH _ _ _ _ H (in_pool_sleep 2 _ Hin2)).
Qed.

(** A reading returned under the limit is the reading of the recursion as
    written, with the same globals and trace. *)
Lemma get_balances_limited_reading : forall stack a w b w',
  get_balances_limited pool to_checksum_address rpc provider_depth stack a w
    = (inr b, w') ->
  get_balances pool to_checksum_address rpc (S stack) a w = Some (inr b, w').
Proof.
  induction stack as [|room IH]; intros a w b w' H;
    cbn [get_balances_limited] in H; cbn [get_balances];
    destruct (attempt to_checksum_address rpc a w) as [[[e|b1] a1] w1] eqn:Hat;
    try (injection H as <- <-; reflexivity).
  - destruct (nth_error pool (current_rpc_index w1)); discriminate.
  - destruct (nth_error pool (current_rpc_index w1)); [|discriminate].
    destruct (switch_rpc_in pool provider_depth room w1) as [[e2|] w2] eqn:Hsw;
      [discriminate|].
    destruct (switch_rpc_in_done _ _ _ Hsw) as (Hs & _). rewrite Hs.
    exact (IH _ _ _ _ H).
Qed.

(** When no attempt can succeed, the retries go as deep as the stack allows
    and end with [RecursionError] in the caller's hands. *)
Lemma get_balances_limited_all_fail :
  (forall x v, exists e x1 v1,
     attempt to_checksum_address rpc x v = (inl e, x1, v1)) ->
  forall stack a w,
    in_pool pool w ->
    exists w' evs,
      get_balances_limited pool to_checksum_address rpc provider_depth stack a w
        = (inl RecursionError, w') /\
      trace w' = trace w ++ evs /\
      filter is_sleep evs = repeat (Sleep 2) (stack - provider_depth).
Proof.
  intros Hfail. induction stack as [|room IH]; intros a w Hin;
    cbn [get_balances_limited];
    destruct (Hfail a w) as (e & a1 & w1 & Hat); rewrite Hat;
    pose proof (attempt_in_pool _ _ _ _ _ Hat Hin) as Hin1;
    destruct (attempt_only_calls _ _ _ _ _ _ _ Hat) as (_ & _ & evs1 & Ht1 & Hc1);
    destruct (nth_error pool (current_rpc_index w1)) as [u|] eqn:Hu;
    try (apply nth_error_None in Hu; destruct Hin1; lia).
  - exists w1, evs1. split; [reflexivity|]. split; [exact Ht1|].
    cbn. exact (filter_is_sleep_calls _ Hc1).
  - destruct (switch_rpc_in_cases room w1 (in_pool_nonempty _ Hin1))
      as (url & Hurl & Hsw).
    destruct (Nat.ltb_spec room provider_depth) as [Hlt|Hge];
      destruct (switch_rpc_in_in_pool _ _ _ _ Hin1 Hsw) as (Hin2 & Ht2);
      rewrite Hsw.
    + eexists. exists evs1. split; [reflexivity|]. split; [exact Ht1|].
      replace (S room - provider_depth)%nat with O by lia.
      exact (filter_is_sleep_calls _ Hc1).
    + match type of Hin2 with in_pool _ ?v => set (w2 := v) in * end.
      destruct (IH a1 (sleep 2 w2) (in_pool_sleep 2 _ Hin2))
        as (w' & evs & Hg & Ht & Hs).
      exists w', (evs1 ++ Sleep 2 :: evs). split; [exact Hg|]. split.
      * rewrite Ht. cbn [sleep log trace]. rewrite Ht2, Ht1.
        rewrite <- !app_assoc. reflexivity.
      * rewrite filter_app, (filter_is_sleep_calls _ Hc1). cbn [filter is_sleep app].
        rewrite Hs. replace (S room - provider_depth)%nat
          with (S (room - provider_depth)) by lia. reflexivity.
Qed.

Lemma attempt_dead a w :
  (forall n url c m, rpc n url c m = None) ->
  exists e a1 w1, attempt to_checksum_address rpc a w = (inl e, a1, w1).
Proof.
  intros Hdead.
  destruct (attempt to_checksum_address rpc a w) as [[[e|b] a1] w1] eqn:Hat.
  - eauto.
  - apply attempt_inr in Hat. destruct Hat as [_ Hr].
    apply reads_inr in Hr. destruct Hr as (ms & ? & ? & ? & ? & ? & (H1 & _) & _).
    rewrite Hdead in H1. discriminate.
Qed.

End LimitFacts.

(** C3. The retries have an end.  Every failed attempt makes [get_balances]
    call itself from its handler, one frame deeper, so on a chain that never
    answers the call goes as deep as the interpreter allows and then hands
    [RecursionError] to its caller, after one sleep of two seconds for each
    retry it could make. *)
Theorem get_balances_recursion_limit
    (pool : list string) (to_checksum_address : string -> option string)
    (rpc : nat -> string -> contract -> method -> option Z)
    (provider_depth stack : nat) (a : string) (w : world) :
  in_pool pool w ->
  (forall n url c m, rpc n url c m = None) ->
  exists w' evs,
    get_balances_limited pool to_checksum_address rpc provider_depth stack a w
      = (inl RecursionError, w') /\
    trace w' = trace w ++ evs /\
    filter is_sleep evs = repeat (Sleep 2) (stack - provider_depth).
Proof.
  intros Hin Hdead. apply get_balances_limited_all_fail; [|exact Hin].
  intros x v. apply attempt_dead. exact Hdead.
Qed.

Lemma get_balances_recursion_limit_witness :
  exists w',
    get_balances_limited RPC_ENDPOINTS any_address dead_rpc 1 1000 USER world_0
      = (inl RecursionError, w') /\
    List.length (filter is_sleep (trace w')) = 999%nat.
Proof.
  destruct (get_balances_recursion_limit RPC_ENDPOINTS any_address dead_rpc
              1 1000 USER world_0) as (w' & evs & Hg & Ht & Hs).
  - split; [cbn; lia | left; reflexivity].
  - reflexivity.
  - exists w'. split; [exact Hg|].
    rewrite Ht. cbn [trace world_0 app]. rewrite Hs. apply repeat_length.
Defined.

(** After a thousand failures on the configured pool the index has moved on
    and the provider has not: the error was raised between the two
    assignments of [switch_rpc]. *)
Example get_balances_out_of_step :
  exists w',
    get_balances_limited RPC_ENDPOINTS any_address dead_rpc 1 1000 USER world_0
      = (inl RecursionError, w') /\
    current_rpc_index w' = 0%nat /\
    provider w' = "https://arbitrum.meowrpc.com"%string.
Proof. eexists. split; [vm_compute; reflexivity|]. split; reflexivity. Qed.

(** C9 as stated (exactly five reads) fails: on the mocked chain the first
    attempt succeeds and has made six contract calls. *)
Lemma get_balances_five_reads_counterexample :
  ~ (forall pool to_checksum_address rpc fuel a w b w',
       get_balances pool to_checksum_address rpc fuel a w = Some (inr b, w') ->
       exists evs,
         trace w' = trace w ++ evs /\
         List.length (filter is_call evs) = 5%nat).
Proof.
  intros H.
  destruct (H pool_ABC any_address mock_rpc 1%nat USER world_A mock_reading
              (after_six world_A USER 100 10)) as (evs & Ht & Hl).
  - vm_compute. reflexivity.
  - cbn in Ht. subst evs. vm_compute in Hl. discriminate.
Qed.

Lemma calls_at_most_ret {A} (a : A) : calls_at_most 0 (ret a).
Proof.
  intros w r w' E. injection E as <- <-. exists [].
  rewrite app_nil_r. repeat split. cbn. lia.
Qed.

Lemma calls_at_most_div_1e6 x : calls_at_most 0 (div_1e6 x).
Proof.
  intros w r w'. unfold div_1e6, bind, lift, ret.
  destruct (float_of_int x); intros E; injection E as <- <-;
    (exists []; rewrite app_nil_r; repeat split; cbn; lia).
Qed.

Lemma calls_at_most_call rpc c m : calls_at_most 1 (call rpc c m).
Proof.
  intros w r w'. unfold call.
  destruct (rpc _ _ c m); intros E; injection E as <- <-;
    (eexists; split; [reflexivity|]; split; [reflexivity | cbn; lia]).
Qed.

Lemma calls_at_most_bind {A B} n1 n2 (m : M A) (f : A -> M B) :
  calls_at_most n1 m -> (forall a, calls_at_most n2 (f a)) ->
  calls_at_most (n1 + n2) (bind m f).
Proof.
  intros Hm Hf w r w'. unfold bind.
  destruct (m w) as [[e|a] w1] eqn:E1; destruct (Hm _ _ _ E1) as (evs1 & Ht1 & Hc1 & Hl1).
  - intros E. injection E as <- <-. exists evs1. repeat split; auto. lia.
  - intros E2. destruct (Hf a _ _ _ E2) as (evs2 & Ht2 & Hc2 & Hl2).
    exists (evs1 ++ evs2). rewrite Ht2, Ht1, app_assoc. split; [reflexivity|].
    rewrite forallb_app, Hc1, Hc2, length_app. split; [reflexivity | lia].
Qed.

(** One pass through the reads makes at most six contract calls. *)
Lemma calls_at_most_reads rpc a : calls_at_most 6 (reads rpc a).
Proof.
  unfold reads.
  change 6%nat with (1 + (1 + (1 + (1 + (1 + (1 + (0 + (0 + (0 + (0 + 0))))))))))%nat.
  repeat (apply calls_at_most_bind;
          [first [apply calls_at_most_call | apply calls_at_most_div_1e6] | intro]).
  apply calls_at_most_ret.
Qed.

Section AttemptFacts.

Variable pool : list string.
Variable to_checksum_address : string -> option string.
Variable rpc : nat -> string -> contract -> method -> option Z.

Lemma attempt_calls_at_most a w r a1 w1 :
  attempt to_checksum_address rpc a w = (r, a1, w1) ->
  exists evs,
    trace w1 = trace w ++ evs /\ forallb is_call evs = true /\
    (List.length evs <= 6)%nat.
Proof.
  unfold attempt. destruct (to_checksum_address a) as [c|].
  - destruct (reads rpc c w) as [r1 v1] eqn:E1. intros E.
    injection E as <- <- <-. exact (calls_at_most_reads rpc c _ _ _ E1).
  - intros E. injection E as <- <- <-. exists [].
    rewrite app_nil_r. repeat split. cbn. lia.
Qed.

(** The address an attempt hands on: the one it got when the checksum
    raised, its checksummed form otherwise. *)
Lemma attempt_address_cases a w r a1 w1 :
  attempt to_checksum_address rpc a w = (r, a1, w1) ->
  (to_checksum_address a = None /\ a1 = a) \/ to_checksum_address a = Some a1.
Proof.
  unfold attempt. destruct (to_checksum_address a) as [c|].
  - destruct (reads rpc c w). intros E. injection E as _ <- _. now right.
  - intros E. injection E as _ <- _. now left.
Qed.

(** The trace of [k] failed attempts: each is at most six calls and then
    the sleep of two seconds. *)
Lemma after_failures_trace : forall k a w a' w0,
  after_failures pool to_checksum_address rpc k a w = Some (a', w0) ->
  exists evs,
    trace w0 = trace w ++ evs /\
    filter is_sleep evs = repeat (Sleep 2) k /\
    (evs = [] \/ exists pre, evs = pre ++ [Sleep 2]) /\
    (List.length (filter is_call evs) <= 6 * k)%nat /\
    (k = O -> a' = a).
Proof.
  induction k as [|k IH]; intros a w a' w0 H.
  - cbn in H. injection H as <- <-. exists [].
    rewrite app_nil_r. cbn. repeat split; auto.
  - cbn [after_failures] in H.
    destruct (attempt to_checksum_address rpc a w) as [[[e1|b] a1] w1] eqn:Ha;
      [|discriminate].
    destruct (attempt_calls_at_most _ _ _ _ _ Ha) as (evs1 & Ht1 & Hc1 & Hl1).
    destruct (switch_rpc pool w1) as [e2|w2] eqn:Hsw; [discriminate|].
    destruct (switch_rpc_inv _ _ _ Hsw) as (_ & _ & Ht2).
    destruct (IH _ _ _ _ H) as (evs & Ht & Hs & Hend & Hl & _).
    exists (evs1 ++ Sleep 2 :: evs). split; [|split; [|split; [|split]]].
    + rewrite Ht. cbn [sleep log trace]. rewrite Ht2, Ht1.
      rewrite <- !app_assoc. reflexivity.
    + rewrite filter_app, (filter_is_sleep_calls _ Hc1). cbn [filter is_sleep app].
      rewrite Hs. reflexivity.
    + right. destruct Hend as [->|(pre & ->)].
      * exists evs1. reflexivity.
      * exists (evs1 ++ Sleep 2 :: pre). rewrite <- app_assoc. reflexivity.
    + rewrite filter_app, length_app. cbn [filter is_call].
      assert (Hl1' : (List.length (filter is_call evs1) <= 6)%nat).
      { pose proof (filter_length_le is_call evs1). lia. }
      lia.
    + discriminate.
Qed.

(** With an idempotent checksum, every retry works on the address given or
    on its checksummed form. *)
Lemma after_failures_address :
  (forall x c, to_checksum_address x = Some c -> to_checksum_address c = Some c) ->
  forall k a w a' w0,
    after_failures pool to_checksum_address rpc k a w = Some (a', w0) ->
    a' = a \/ to_checksum_address a = Some a'.
Proof.
  intros Hidem. induction k as [|k IH]; intros a w a' w0 H.
  - cbn in H. injection H as <- <-. now left.
  - cbn [after_failures] in H.
    destruct (attempt to_checksum_address rpc a w) as [[[e1|b] a1] w1] eqn:Ha;
      [|discriminate].
    destruct (switch_rpc pool w1) as [e2|w2]; [discriminate|].
    destruct (attempt_address_cases _ _ _ _ _ Ha) as [[_ ->]|Hc].
    + exact (IH _ _ _ _ H).
    + right. destruct (IH _ _ _ _ H) as [->|H1]; [exact Hc|].
      rewrite (Hidem _ _ Hc) in H1. injection H1 as <-. exact Hc.
Qed.

End AttemptFacts.

(** C9, amended. The attempt of [get_balances] that returns the reading makes
    exactly six contract calls on the active provider, in this order: Morpho
    [balanceOf] of the checksummed address, Morpho [convertToAssets] of the
    shares that call answered, Aave USDC [balanceOf], Aave debt [balanceOf],
    Euler [balanceOf], Euler [convertToAssets] of the shares that call
    answered.  They are the last six events of the invocation, and what
    precedes them is the [k] failed attempts: each at most six calls followed
    by the sleep of two seconds, so that the six calls start right after the
    last sleep, or at the start of the invocation when no attempt failed. *)
Theorem get_balances_six_reads
    (pool : list string) (to_checksum_address : string -> option string)
    (rpc : nat -> string -> contract -> method -> option Z)
    (fuel : nat) (a : string) (w : world) (b : balances) (w' : world) :
  get_balances pool to_checksum_address rpc fuel a w = Some (inr b, w') ->
  exists k earlier a' ms es,
    trace w' =
      trace w ++ earlier ++
      [ Call (provider w') MORPHO_DEFAULT (balanceOf a');
        Call (provider w') MORPHO_DEFAULT (convertToAssets ms);
        Call (provider w') AAVE_USDC (balanceOf a');
        Call (provider w') AAVE_DEBT (balanceOf a');
        Call (provider w') EULER_USDC_EARN (balanceOf a');
        Call (provider w') EULER_USDC_EARN (convertToAssets es) ] /\
    rpc (List.length (trace w ++ earlier)) (provider w') MORPHO_DEFAULT
      (balanceOf a') = Some ms /\
    rpc (4 + List.length (trace w ++ earlier))%nat (provider w') EULER_USDC_EARN
      (balanceOf a') = Some es /\
    filter is_sleep earlier = repeat (Sleep 2) k /\
    (earlier = [] \/ exists pre, earlier = pre ++ [Sleep 2]) /\
    (List.length (filter is_call earlier) <= 6 * k)%nat /\
    (earlier = [] -> to_checksum_address a = Some a') /\
    ((forall x c, to_checksum_address x = Some c ->
                  to_checksum_address c = Some c) ->
     to_checksum_address a = Some a').
Proof.
  intros Hg.
  destruct (get_balances_inr _ _ _ _ _ _ _ _ Hg)
    as (k & x & w0 & a' & _ & Haf & Hat).
  destruct (after_failures_trace _ _ _ _ _ _ _ _ Haf)
    as (earlier & Ht & Hs & Hend & Hl & Hk).
  apply attempt_inr in Hat. destruct Hat as [Hx Hr].
  apply reads_inr in Hr.
  destruct Hr as (ms & ma & ab & db & es & ea & Hans & _ & ->).
  destruct Hans as (H1 & _ & _ & _ & H5 & _).
  exists k, earlier, a', ms, es. cbn [after_six trace provider].
  split; [rewrite Ht, <- app_assoc; reflexivity|]. rewrite <- Ht.
  split; [exact H1|]. split; [exact H5|]. split; [exact Hs|].
  split; [exact Hend|]. split; [exact Hl|]. split.
  - intros He. rewrite He in Hs. destruct k; [|discriminate].
    rewrite (Hk eq_refl) in Hx. exact Hx.
  - intros Hidem.
    destruct (after_failures_address _ _ _ Hidem _ _ _ _ _ Haf) as [->|Hc];
      [exact Hx|].
    rewrite (Hidem _ _ Hc) in Hx. injection Hx as <-. exact Hc.
Qed.

Lemma get_balances_six_reads_witness :
  exists k earlier a' ms es,
    [ Call "A" MORPHO_DEFAULT (balanceOf USER); Sleep 2;
      Call "B" MORPHO_DEFAULT (balanceOf USER); Sleep 2;
      Call "C" MORPHO_DEFAULT (balanceOf USER);
      Call "C" MORPHO_DEFAULT (convertToAssets 100);
      Call "C" AAVE_USDC (balanceOf USER);
      Call "C" AAVE_DEBT (balanceOf USER);
      Call "C" EULER_USDC_EARN (balanceOf USER);
      Call "C" EULER_USDC_EARN (convertToAssets 10) ]%string =
      [] ++ earlier ++
      [ Call "C" MORPHO_DEFAULT (balanceOf a');
        Call "C" MORPHO_DEFAULT (convertToAssets ms);
        Call "C" AAVE_USDC (balanceOf a');
        Call "C" AAVE_DEBT (balanceOf a');
        Call "C" EULER_USDC_EARN (balanceOf a');
        Call "C" EULER_USDC_EARN (convertToAssets es) ]%string /\
    only_C_up (List.length ([] ++ earlier)) "C" MORPHO_DEFAULT (balanceOf a')
      = Some ms /\
    only_C_up (4 + List.length ([] ++ earlier))%nat "C" EULER_USDC_EARN
      (balanceOf a') = Some es /\
    filter is_sleep earlier = repeat (Sleep 2) k /\
    (earlier = [] \/ exists pre, earlier = pre ++ [Sleep 2]) /\
    (List.length (filter is_call earlier) <= 6 * k)%nat /\
    (earlier = [] -> any_address USER = Some a') /\
    ((forall x c, any_address x = Some c -> any_address c = Some c) ->
     any_address USER = Some a').
Proof.
  apply (get_balances_six_reads pool_ABC any_address only_C_up 3 USER world_A
           mock_reading
           {| current_rpc_index := 2; provider := "C";
              trace :=
                [ Call "A" MORPHO_DEFAULT (balanceOf USER); Sleep 2;
                  Call "B" MORPHO_DEFAULT (balanceOf USER); Sleep 2 ]
                ++ six_calls "C" USER 100 10 |}).
  vm_compute. reflexivity.
Defined.

(** C10. When the address checksums and the six reads of the first attempt
    are answered, [get_balances] returns with [current_rpc_index] and
    [provider] as they were; an attempt, whatever its outcome, leaves both
    alone, so that only the handler's [switch_rpc] moves them. *)
Theorem get_balances_success_keeps_rpc
    (pool : list string) (to_checksum_address : string -> option string)
    (rpc : nat -> string -> contract -> method -> option Z)
    (fuel : nat) (a a' : string) (w : world) (ms ma ab db es ea : Z) :
  to_checksum_address a = Some a' ->
  answers rpc (List.length (trace w)) (provider w) a' ms ma ab db es ea ->
  uint256 ma -> uint256 ab -> uint256 db -> uint256 ea ->
  (exists b w',
     get_balances pool to_checksum_address rpc (S fuel) a w = Some (inr b, w') /\
     current_rpc_index w' = current_rpc_index w /\
     provider w' = provider w) /\
  (forall x v r x1 v1,
     attempt to_checksum_address rpc x v = (r, x1, v1) ->
     current_rpc_index v1 = current_rpc_index v /\ provider v1 = provider v).
Proof.
  intros Ha Hans Uma Uab Udb Uea. split.
  - exists (reading ma ab db ea), (after_six w a' ms es). split; [|now cbn].
    cbn [get_balances].
    rewrite (attempt_ok _ _ _ _ _ _ _ Ha
               (reads_ok _ _ _ _ _ _ _ _ _ Hans Uma Uab Udb Uea)).
    reflexivity.
  - intros x v r x1 v1 Hat.
    destruct (attempt_only_calls _ _ _ _ _ _ _ Hat) as (Hi & Hp & _). auto.
Qed.

Lemma get_balances_success_keeps_rpc_witness :
  exists b w',
    get_balances RPC_ENDPOINTS any_address mock_rpc 1 USER world_0 =
      Some (inr b, w') /\
    current_rpc_index w' = current_rpc_index world_0 /\
    provider w' = provider world_0.
Proof.
  refine (proj1 (get_balances_success_keeps_rpc RPC_ENDPOINTS any_address
                   mock_rpc 0 USER USER world_0
                   100 200000000 50000000 30000000 10 40000000 _ _ _ _ _ _)).
  - reflexivity.
  - repeat split.
  - unfold uint256. split; [lia | reflexivity].
  - unfold uint256. split; [lia | reflexivity].
  - unfold uint256. split; [lia | reflexivity].
  - unfold uint256. split; [lia | reflexivity].
Defined.

(** ** The snapshot table *)

Lemma filter_all {A} (f : A -> bool) l :
  (forall x, In x l -> f x = true) -> filter f l = l.
Proof.
  induction l as [|x l IH]; intros H; [reflexivity|].
  cbn. rewrite (H x (or_introl eq_refl)). f_equal. apply IH.
  intros y Hy. apply H. now right.
Qed.

Lemma filter_none {A} (f : A -> bool) l :
  (forall x, In x l -> f x = false) -> filter f l = [].
Proof.
  induction l as [|x l IH]; intros H; [reflexivity|].
  cbn. rewrite (H x (or_introl eq_refl)). apply IH.
  intros y Hy. apply H. now right.
Qed.

Lemma existsb_eqb_In x ids : existsb (Z.eqb x) ids = true <-> In x ids.
Proof.
  rewrite existsb_exists. split.
  - intros (y & Hy & E). apply Z.eqb_eq in E. now subst.
  - intros H. exists x. split; [exact H | apply Z.eqb_refl].
Qed.

Lemma ascending_from_lt : forall l lo,
  ascending_from lo l = true -> forall r, In r l -> lo < c_id r.
Proof.
  induction l as [|a l IH]; intros lo H r Hin; [contradiction|].
  cbn in H. apply andb_prop in H. destruct H as [Ha Hl].
  apply Z.ltb_lt in Ha. destruct Hin as [<-|Hin]; [exact Ha|].
  specialize (IH _ Hl r Hin). lia.
Qed.

Lemma ascending_from_weaken lo lo' l :
  lo' <= lo -> ascending_from lo l = true -> ascending_from lo' l = true.
Proof.
  intros Hle. destruct l as [|a l]; [reflexivity|]. cbn.
  intros H. apply andb_prop in H. destruct H as [Ha Hl]. rewrite Hl.
  apply Z.ltb_lt in Ha. rewrite andb_true_r. apply Z.ltb_lt. lia.
Qed.

Lemma ascending_from_app : forall l1 l2 lo,
  ascending_from lo (l1 ++ l2) = true ->
  ascending_from lo l1 = true /\
  ascending_from lo l2 = true /\
  (forall r r', In r l1 -> In r' l2 -> c_id r < c_id r').
Proof.
  induction l1 as [|a l1 IH]; intros l2 lo H.
  - cbn in *. repeat split; auto. contradiction.
  - cbn in H. apply andb_prop in H. destruct H as [Ha Hl].
    destruct (IH _ _ Hl) as (H1 & H2 & Hx).
    apply Z.ltb_lt in Ha. split; [|split].
    + cbn. rewrite H1. rewrite andb_true_r. now apply Z.ltb_lt.
    + apply (ascending_from_weaken (c_id a)); [lia | exact H2].
    + intros r r' [<-|Hr] Hr'.
      * apply (ascending_from_lt _ _ Hl). apply in_or_app. now right.
      * now apply Hx.
Qed.

Lemma ascending_from_snoc : forall l lo r,
  ascending_from lo l = true -> lo < c_id r ->
  (forall x, In x l -> c_id x < c_id r) ->
  ascending_from lo (l ++ [r]) = true.
Proof.
  induction l as [|a l IH]; intros lo r H Hlo Hall.
  - cbn. rewrite andb_true_r. now apply Z.ltb_lt.
  - cbn in *. apply andb_prop in H. destruct H as [Ha Hl]. rewrite Ha. cbn.
    apply IH; [exact Hl | apply Hall; now left | intros x Hx; apply Hall; now right].
Qed.

Lemma wf_db_ascending d :
  wf_db d = true -> exists lo, ascending_from lo (defi_snapshots d) = true.
Proof.
  unfold wf_db. destruct (defi_snapshots d) as [|r rs]; intros H.
  - exists 0. reflexivity.
  - exists (c_id r - 1). cbn. rewrite H, andb_true_r. apply Z.ltb_lt. lia.
Qed.

Lemma ascending_wf_db d lo :
  ascending_from lo (defi_snapshots d) = true -> wf_db d = true.
Proof.
  unfold wf_db. destruct (defi_snapshots d) as [|r rs]; [reflexivity|].
  cbn. intros H. apply andb_prop in H. tauto.
Qed.

Lemma insert_desc_snoc r : forall l,
  (forall x, In x l -> c_id r < c_id x) -> insert_desc r l = l ++ [r].
Proof.
  induction l as [|x l IH]; intros H; [reflexivity|].
  cbn. assert (Hx : c_id r < c_id x) by (apply H; now left).
  destruct (Z.leb_spec (c_id x) (c_id r)); [lia|].
  f_equal. apply IH. intros y Hy. apply H. now right.
Qed.

(** In a table scanned in rowid order, [ORDER BY id DESC] is the scan
    reversed. *)
Lemma order_by_id_desc_rev : forall l lo,
  ascending_from lo l = true -> order_by_id_desc l = rev l.
Proof.
  induction l as [|a l IH]; intros lo H; [reflexivity|].
  cbn in H. apply andb_prop in H. destruct H as [_ Hl].
  unfold order_by_id_desc in *. cbn [fold_right rev].
  rewrite (IH _ Hl). apply insert_desc_snoc.
  intros x Hx. apply in_rev in Hx. exact (ascending_from_lt _ _ Hl x Hx).
Qed.

(** [ORDER BY id DESC LIMIT n]: the last [n] rows of the scan, newest
    first. *)
Lemma select_top l lo n :
  ascending_from lo l = true -> 0 <= n ->
  sql_limit n (order_by_id_desc l) =
    rev (skipn (List.length l - Z.to_nat n) l).
Proof.
  intros H Hn. unfold sql_limit.
  destruct (Z.ltb_spec n 0); [lia|].
  rewrite (order_by_id_desc_rev _ _ H). apply firstn_rev.
Qed.

Lemma descending_rev : forall l lo,
  ascending_from lo l = true -> descending (rev l).
Proof.
  induction l as [|a l IH] using rev_ind; intros lo H; [exact I|].
  rewrite rev_unit. cbn [descending].
  destruct (ascending_from_app _ _ _ H) as (Hl & _ & Hx). split.
  - intros r' Hr'. apply in_rev in Hr'. apply (Hx r' a Hr'). now left.
  - exact (IH _ Hl).
Qed.

Lemma keep_suffix lo pre suf :
  ascending_from lo (pre ++ suf) = true ->
  delete_where (fun r => not_in (c_id r) (map c_id (rev suf))) (pre ++ suf) = suf.
Proof.
  intros H. destruct (ascending_from_app _ _ _ H) as (_ & Hsuf & Hx).
  unfold delete_where, not_in. rewrite filter_app.
  rewrite filter_none, filter_all; [reflexivity| |].
  - intros r Hr. rewrite negb_involutive. apply existsb_eqb_In.
    apply in_map. apply -> in_rev. exact Hr.
  - intros r Hr. rewrite negb_involutive.
    destruct (existsb (Z.eqb (c_id r)) (map c_id (rev suf))) eqn:E; [|reflexivity].
    apply existsb_eqb_In in E. apply in_map_iff in E.
    destruct E as (r' & Eid & Hr'). apply in_rev in Hr'.
    specialize (Hx r r' Hr Hr'). lia.
Qed.

(** What [cleanup_database] leaves when it deletes. *)
Lemma cleanup_database_rows d lo limit :
  ascending_from lo (defi_snapshots d) = true ->
  0 <= limit < count d ->
  defi_snapshots (cleanup_database limit d) =
    skipn (Z.to_nat (count d - limit)) (defi_snapshots d).
Proof.
  intros H [Hlo Hhi]. unfold cleanup_database.
  destruct (Z.gtb_spec (count d) limit); [|lia]. cbn [defi_snapshots].
  rewrite (select_top _ _ _ H Hlo).
  replace (List.length (defi_snapshots d) - Z.to_nat limit)%nat
    with (Z.to_nat (count d - limit)) by (unfold count; lia).
  set (k := Z.to_nat (count d - limit)).
  pose proof (keep_suffix lo (firstn k (defi_snapshots d))
                (skipn k (defi_snapshots d))) as Hk.
  rewrite firstn_skipn in Hk. exact (Hk H).
Qed.

Lemma cleanup_database_noop d limit :
  count d <= limit -> cleanup_database limit d = d.
Proof.
  intros H. unfold cleanup_database.
  destruct (Z.gtb_spec (count d) limit); [lia | reflexivity].
Qed.

Lemma max_rowid_ge rows : forall r, In r rows -> c_id r <= max_rowid rows.
Proof.
  induction rows as [|a l IH]; intros r Hin; [contradiction|].
  cbn. destruct Hin as [<-|Hin]; [lia|]. specialize (IH r Hin).
  fold (max_rowid l). lia.
Qed.

Lemma max_rowid_nonneg rows : 0 <= max_rowid rows.
Proof. induction rows as [|a l IH]; cbn; [lia|]. fold (max_rowid l). lia. Qed.

Lemma max_rowid_snoc rows r :
  max_rowid (rows ++ [r]) = Z.max (max_rowid rows) (c_id r).
Proof.
  induction rows as [|a l IH]; cbn.
  - lia.
  - fold (max_rowid (l ++ [r])). fold (max_rowid l). rewrite IH. lia.
Qed.

Lemma save_snapshot_inr now address b d d' :
  save_snapshot now address b d = inr d' ->
  defi_snapshots d' = defi_snapshots d ++ [new_row (next_id d) now address b] /\
  next_id d' = next_id d + 1 /\
  next_id d <= MAX_ROWID.
Proof.
  unfold save_snapshot. destruct (Z.gtb_spec (next_id d) MAX_ROWID); [discriminate|].
  intros E. injection E as <-. split; [reflexivity|]. split; [|lia].
  unfold next_id at 1. cbn [defi_snapshots sqlite_sequence].
  rewrite max_rowid_snoc. cbn [new_row c_id]. unfold next_id.
  pose proof (max_rowid_nonneg (defi_snapshots d)). lia.
Qed.

Lemma save_snapshot_ok now address b d :
  next_id d <= MAX_ROWID ->
  exists d', save_snapshot now address b d = inr d'.
Proof.
  intros H. unfold save_snapshot.
  destruct (Z.gtb_spec (next_id d) MAX_ROWID); [lia|]. eauto.
Qed.

Lemma save_snapshot_wf now address b d d' :
  wf_db d = true -> save_snapshot now address b d = inr d' -> wf_db d' = true.
Proof.
  intros Hwf Hs. destruct (save_snapshot_inr _ _ _ _ _ Hs) as (Hrows & _ & _).
  destruct (wf_db_ascending _ Hwf) as (lo & Hasc).
  apply (ascending_wf_db d' (Z.min lo 0 - 1)). rewrite Hrows.
  apply ascending_from_snoc.
  - apply (ascending_from_weaken lo); [lia | exact Hasc].
  - cbn. unfold next_id.
    pose proof (max_rowid_nonneg (defi_snapshots d)). lia.
  - intros x Hx. cbn. unfold next_id.
    pose proof (max_rowid_ge _ _ Hx). lia.
Qed.

Lemma appends_wf : forall xs d d',
  wf_db d = true -> appends xs d = inr d' -> wf_db d' = true.
Proof.
  induction xs as [|[[now address] b] xs IH]; intros d d' Hwf H.
  - cbn in H. now injection H as <-.
  - cbn in H. destruct (save_snapshot now address b d) as [e|d1] eqn:Hs;
      [discriminate|].
    apply (IH d1); [exact (save_snapshot_wf _ _ _ _ _ Hwf Hs) | exact H].
Qed.

(** The rows of the table after a run of appends: the old ones, then one
    row per call, numbered from [next_id]. *)
Lemma appends_rows : forall xs d d',
  appends xs d = inr d' ->
  defi_snapshots d' = defi_snapshots d ++ fresh_rows (next_id d) xs.
Proof.
  induction xs as [|[[now address] b] xs IH]; intros d d' H.
  - cbn in H. injection H as <-. cbn. now rewrite app_nil_r.
  - cbn in H. destruct (save_snapshot now address b d) as [e|d1] eqn:Hs;
      [discriminate|].
    destruct (save_snapshot_inr _ _ _ _ _ Hs) as (Hrows & Hnext & _).
    rewrite (IH _ _ H), Hrows, Hnext. cbn [fresh_rows].
    rewrite <- app_assoc. reflexivity.
Qed.

Lemma appends_ok : forall xs d,
  next_id d + Z.of_nat (List.length xs) - 1 <= MAX_ROWID ->
  exists d', appends xs d = inr d'.
Proof.
  induction xs as [|[[now address] b] xs IH]; intros d H.
  - exists d. reflexivity.
  - cbn [List.length] in H.
    destruct (save_snapshot_ok now address b d) as (d1 & Hs); [lia|].
    destruct (save_snapshot_inr _ _ _ _ _ Hs) as (_ & Hnext & _).
    cbn [appends]. rewrite Hs. apply IH. lia.
Qed.

Lemma ascending_from_filter (f : row -> bool) : forall l lo,
  ascending_from lo l = true -> ascending_from lo (filter f l) = true.
Proof.
  induction l as [|a l IH]; intros lo Hasc; [reflexivity|].
  cbn in Hasc. apply andb_prop in Hasc. destruct Hasc as [Ha Hl].
  cbn [filter]. destruct (f a).
  - cbn. rewrite Ha. cbn. apply IH. exact Hl.
  - apply IH. apply (ascending_from_weaken (c_id a)); [|exact Hl].
    apply Z.ltb_lt in Ha. lia.
Qed.

Lemma cleanup_database_wf limit d :
  wf_db d = true -> wf_db (cleanup_database limit d) = true.
Proof.
  intros Hwf. destruct (wf_db_ascending _ Hwf) as (lo & Hasc).
  unfold cleanup_database.
  destruct (Z.gtb_spec (count d) limit) as [Hgt|Hle]; [|exact Hwf].
  apply (ascending_wf_db _ lo). cbn [defi_snapshots].
  apply ascending_from_filter. exact Hasc.
Qed.

(** Every state the robot can bring the table to is well formed. *)
Lemma empty_db_wf : wf_db empty_db = true.
Proof. reflexivity. Qed.

(** C1. After any run of successful [save_snapshot] calls on a well-formed
    table, leaving [N] rows in insertion order, [cleanup_database limit] with
    [0 <= limit < N] leaves exactly [limit] rows: the last [limit] rows of the
    table, each deleted row having a smaller id than each surviving one.  With
    [N <= limit] the database is unchanged. *)
Theorem cleanup_database_retention
    (d0 : db) (xs : list (string * string * balances)) (d : db) (limit : Z) :
  wf_db d0 = true ->
  appends xs d0 = inr d ->
  defi_snapshots d = defi_snapshots d0 ++ fresh_rows (next_id d0) xs /\
  (0 <= limit < count d ->
   count (cleanup_database limit d) = limit /\
   defi_snapshots (cleanup_database limit d) =
     skipn (Z.to_nat (count d - limit)) (defi_snapshots d) /\
   (forall r r',
      In r (defi_snapshots d) ->
      ~ In r (defi_snapshots (cleanup_database limit d)) ->
      In r' (defi_snapshots (cleanup_database limit d)) ->
      c_id r < c_id r')) /\
  (count d <= limit -> cleanup_database limit d = d).
Proof.
  intros Hwf0 Happ.
  split; [exact (appends_rows _ _ _ Happ)|].
  split; [|apply cleanup_database_noop].
  intros Hlim.
  destruct (wf_db_ascending _ (appends_wf _ _ _ Hwf0 Happ)) as (lo & Hasc).
  pose proof (cleanup_database_rows d lo limit Hasc Hlim) as Hrows.
  split; [|split; [exact Hrows|]].
  - unfold count at 1. rewrite Hrows, length_skipn. unfold count in *. lia.
  - rewrite Hrows. set (k := Z.to_nat (count d - limit)).
    intros r r' Hr Hnot Hr'.
    rewrite <- (firstn_skipn k (defi_snapshots d)) in Hasc, Hr.
    destruct (ascending_from_app _ _ _ Hasc) as (_ & _ & Hx).
    apply in_app_or in Hr. destruct Hr as [Hr|Hr]; [|contradiction].
    exact (Hx r r' Hr Hr').
Qed.

Lemma cleanup_database_retention_witness :
  exists d,
    appends snapshots_10005 empty_db = inr d /\
    count d = 10005 /\
    count (cleanup_database LIMIT_REGISTROS d) = 10000 /\
    min_id (cleanup_database LIMIT_REGISTROS d) = Some 6.
Proof.
  destruct (appends_ok snapshots_10005 empty_db) as (d & Hd).
  { vm_compute. discriminate. }
  exists d. split; [exact Hd|].
  destruct (cleanup_database_retention empty_db snapshots_10005 d
              LIMIT_REGISTROS empty_db_wf Hd) as (Hrows & Hdel & _).
  assert (Hcount : count d = 10005).
  { unfold count. rewrite Hrows. vm_compute. reflexivity. }
  split; [exact Hcount|].
  destruct Hdel as (Hlimit & Hkept & _).
  { rewrite Hcount. unfold LIMIT_REGISTROS. lia. }
  split; [exact Hlimit|].
  unfold min_id. rewrite Hkept, Hcount, Hrows. vm_compute. reflexivity.
Defined.

(** C7. On a table without rows [latest_snapshot] answers with the error
    object and status 404; otherwise it answers, with status 200, the record
    of the row whose id is the highest of the table: an object with that
    row's id, time stamp, address and five amounts under the eight keys, a
    [NULL] amount being [null]. *)
Theorem latest_snapshot_highest (d : db) :
  wf_db d = true ->
  (defi_snapshots d = [] ->
   latest_snapshot d =
     (JObject [("error", JString "No hay datos aún")]%string, 404)) /\
  (defi_snapshots d <> [] ->
   exists r,
     In r (defi_snapshots d) /\
     (forall r', In r' (defi_snapshots d) -> c_id r' <= c_id r) /\
     latest_snapshot d =
       (JObject
          [ ("id", JInt (c_id r));
            ("timestamp", JString (c_timestamp r));
            ("address", JString (c_address r));
            ("morpho", match c_morpho r with Some f => JFloat f | None => JNull end);
            ("aave", match c_aave r with Some f => JFloat f | None => JNull end);
            ("euler", match c_euler r with Some f => JFloat f | None => JNull end);
            ("debt", match c_debt r with Some f => JFloat f | None => JNull end);
            ("net", match c_net r with Some f => JFloat f | None => JNull end)
          ]%string, 200)).
Proof.
  intros Hwf. split.
  - intros He. unfold latest_snapshot. rewrite He. reflexivity.
  - intros Hne. destruct (wf_db_ascending _ Hwf) as (lo & Hasc).
    destruct (exists_last Hne) as (l & r & Hl).
    exists r. rewrite Hl in *. split; [apply in_or_app; right; now left|].
    destruct (ascending_from_app _ _ _ Hasc) as (_ & _ & Hx).
    split.
    + intros r' Hr'. apply in_app_or in Hr'. destruct Hr' as [Hr'|[<-|[]]]; [|lia].
      specialize (Hx r' r Hr' (or_introl eq_refl)). lia.
    + unfold latest_snapshot. rewrite Hl.
      rewrite (select_top _ lo 1 Hasc) by lia.
      rewrite length_app. cbn [List.length].
      replace (List.length l + 1 - Z.to_nat 1)%nat with (List.length l) by lia.
      rewrite skipn_app, skipn_all, Nat.sub_diag. reflexivity.
Qed.

Lemma latest_snapshot_highest_witness :
  latest_snapshot empty_db =
    (JObject [("error", JString "No hay datos aún")]%string, 404) /\
  latest_snapshot db_plus_minus =
    (JObject
       [ ("id", JInt 2); ("timestamp", JString "2026-01-01T00:05:00");
         ("address", JString "0x0000000000000000000000000000000000000000");
         ("morpho", JFloat 5); ("aave", JFloat 0); ("euler", JFloat 0);
         ("debt", JFloat 0); ("net", JFloat 5) ]%string, 200).
Proof.
  split.
  - apply (proj1 (latest_snapshot_highest empty_db eq_refl)). reflexivity.
  - destruct (proj2 (latest_snapshot_highest db_plus_minus eq_refl))
      as (r & Hin & Hmax & Hresp); [discriminate|].
    rewrite Hresp. vm_compute in Hin. destruct Hin as [<-|[<-|[]]].
    + exfalso.
      assert (H : c_id (new_row 2 "2026-01-01T00:05:00" USER
                          (reading 5000000 0 0 0))
                  <= c_id (new_row 1 "2026-01-01T00:00:00" USER
                             (reading 0 0 5000000 0))).
      { apply Hmax. right. left. reflexivity. }
      vm_compute in H. apply H. reflexivity.
    + vm_compute. reflexivity.
Defined.

Lemma descending_nth : forall l i j r r',
  descending l -> (i < j)%nat ->
  nth_error l i = Some r -> nth_error l j = Some r' -> c_id r' < c_id r.
Proof.
  induction l as [|x l IH]; intros i j r r' Hd Hij Hi Hj.
  - destruct i; discriminate.
  - destruct Hd as [Hx Hd]. destruct j as [|j]; [lia|]. cbn in Hj.
    destruct i as [|i].
    + cbn in Hi. injection Hi as <-. apply Hx. exact (nth_error_In _ _ Hj).
    + cbn in Hi. apply (IH i j); auto. lia.
Qed.

(** C8. [history] answers, with status 200, an array with one record for
    each of the last 50 rows of the table (all of them when there are fewer,
    none when there are none), newest first: each record is the object with
    its row's id, time stamp, address and five amounts; the ids strictly
    decrease along the array; and every row left out has a smaller id than
    every row returned. *)
Theorem history_recent (d : db) :
  wf_db d = true ->
  let rows := defi_snapshots d in
  let out := rev (skipn (List.length rows - 50) rows) in
  history d =
    (JArray
       (map
          (fun r =>
             JObject
               [ ("id", JInt (c_id r));
                 ("timestamp", JString (c_timestamp r));
                 ("address", JString (c_address r));
                 ("morpho", match c_morpho r with Some f => JFloat f | None => JNull end);
                 ("aave", match c_aave r with Some f => JFloat f | None => JNull end);
                 ("euler", match c_euler r with Some f => JFloat f | None => JNull end);
                 ("debt", match c_debt r with Some f => JFloat f | None => JNull end);
                 ("net", match c_net r with Some f => JFloat f | None => JNull end)
               ]%string)
          out), 200) /\
  List.length out = Nat.min 50 (List.length rows) /\
  descending out /\
  (forall i j r r',
     (i < j)%nat -> nth_error out i = Some r -> nth_error out j = Some r' ->
     c_id r' < c_id r) /\
  (forall r r', In r rows -> ~ In r out -> In r' out -> c_id r < c_id r').
Proof.
  intros Hwf rows out. destruct (wf_db_ascending _ Hwf) as (lo & Hasc).
  subst out rows. set (rows := defi_snapshots d) in *.
  assert (Hdesc : descending (rev (skipn (List.length rows - 50) rows))).
  { pose proof Hasc as Hasc'.
    rewrite <- (firstn_skipn (List.length rows - 50) rows) in Hasc'.
    destruct (ascending_from_app _ _ _ Hasc') as (_ & Hs & _).
    exact (descending_rev _ _ Hs). }
  split; [|split; [|split; [|split]]].
  - unfold history, jsonify. fold rows.
    rewrite (select_top rows lo 50 Hasc) by lia. reflexivity.
  - rewrite length_rev, length_skipn. lia.
  - exact Hdesc.
  - intros i j r r'. apply descending_nth. exact Hdesc.
  - intros r r' Hr Hnot Hr'.
    rewrite <- in_rev in Hnot, Hr'.
    rewrite <- (firstn_skipn (List.length rows - 50) rows) in Hasc, Hr.
    destruct (ascending_from_app _ _ _ Hasc) as (_ & _ & Hx).
    apply in_app_or in Hr. destruct Hr as [Hr|Hr]; [|contradiction].
    exact (Hx r r' Hr Hr').
Qed.

Lemma history_recent_witness :
  history db_plus_minus =
    (JArray
       [ JObject
           [ ("id", JInt 2); ("timestamp", JString "2026-01-01T00:05:00");
             ("address", JString "0x0000000000000000000000000000000000000000");
             ("morpho", JFloat 5); ("aave", JFloat 0); ("euler", JFloat 0);
             ("debt", JFloat 0); ("net", JFloat 5) ]%string;
         JObject
           [ ("id", JInt 1); ("timestamp", JString "2026-01-01T00:00:00");
             ("address", JString "0x0000000000000000000000000000000000000000");
             ("morpho", JFloat 0); ("aave", JFloat 0); ("euler", JFloat 0);
             ("debt", JFloat 5); ("net", JFloat (-5)) ]%string ], 200) /\
  history empty_db = (JArray [], 200).
Proof.
  split.
  - exact (proj1 (history_recent db_plus_minus eq_refl)).
  - exact (proj1 (history_recent empty_db eq_refl)).
Defined.

(** The test table is what two appends to a new database produce. *)
Example db_plus_minus_appended : appends plus_minus empty_db = inr db_plus_minus.
Proof. vm_compute. reflexivity. Qed.

(** [stats] never takes its 404 branch. *)
Lemma stats_status d r : stats d = inr r -> snd r = 200.
Proof.
  unfold stats, select_avg_min_max, fetchone. cbn [hd_error].
  destruct (if real_truthy _ then _ else _); [discriminate|].
  intros E. injection E as <-. reflexivity.
Qed.

(** C4. On the empty table [stats] does not give the no-data answer: the
    aggregate query yields its one row of NULLs, which is true, and the route
    answers status 200 with three nulls and a variation of 0. *)
Theorem stats_empty_store :
  stats empty_db =
    inr (JObject [ ("average_net", JNull); ("min_net", JNull);
                   ("max_net", JNull); ("variation", JInt 0) ]%string, 200).
Proof. reflexivity. Qed.

(** When the average of the window is not zero, the variation is the maximum
    minus the minimum of the net column of the last 1000 rows. *)
Lemma stats_variation d avg :
  sql_avg (window_nets 1000 d) = Some avg -> float_truthy avg = true ->
  exists mn mx,
    sql_min (window_nets 1000 d) = Some mn /\
    sql_max (window_nets 1000 d) = Some mx /\
    stats d =
      inr (JObject [ ("average_net", JFloat avg); ("min_net", JFloat mn);
                     ("max_net", JFloat mx);
                     ("variation", JFloat (mx - mn)%float) ]%string, 200).
Proof.
  intros Havg Ht. unfold stats, select_avg_min_max, fetchone. cbn [hd_error].
  rewrite Havg. cbn [real_truthy]. rewrite Ht.
  unfold sql_avg in Havg. unfold sql_min, sql_max.
  destruct (non_null (window_nets 1000 d)) as [|f fs]; [discriminate|].
  eexists. eexists. split; [reflexivity|]. split; [reflexivity|]. reflexivity.
Qed.

Lemma window_nets_recent d :
  wf_db d = true ->
  window_nets 1000 d =
    map c_net (rev (skipn (List.length (defi_snapshots d) - 1000)
                      (defi_snapshots d))).
Proof.
  intros Hwf. destruct (wf_db_ascending _ Hwf) as (lo & Hasc).
  unfold window_nets. rewrite (select_top _ lo 1000 Hasc) by lia. reflexivity.
Qed.

(** C5. On the table of two snapshots with net -5 and 5 the average is 0,
    which Python takes for false: [stats] answers a variation of 0 although
    the maximum minus the minimum of the window is 10. *)
Theorem stats_zero_average :
  stats db_plus_minus =
    inr (JObject [ ("average_net", JFloat 0); ("min_net", JFloat (-5));
                   ("max_net", JFloat 5); ("variation", JInt 0) ]%string, 200)
  /\ (5 - (-5) = 10)%float.
Proof. split; vm_compute; reflexivity. Qed.

(** ** More on the fail-over and the aggregation *)

Section RetryFacts.

Variable pool : list string.
Variable to_checksum_address : string -> option string.
Variable rpc : nat -> string -> contract -> method -> option Z.


Lemma consistent_sleep s w : consistent pool w -> consistent pool (sleep s w).
Proof. exact (fun H => H). Qed.


Lemma attempt_invalid a w :
  to_checksum_address a = None ->
  attempt to_checksum_address rpc a w = (inl ValueError, a, w).
Proof. unfold attempt. now intros ->. Qed.

End RetryFacts.

(** X1. A reading returned by [get_balances] leaves the globals in step: the
    provider is the one of the endpoint under the cursor, and the cursor is
    inside the pool. *)
Theorem get_balances_keeps_provider_in_step
    (pool : list string) (to_checksum_address : string -> option string)
    (rpc : nat -> string -> contract -> method -> option Z)
    (fuel : nat) (a : string) (w : world) (b : balances) (w' : world) :
  consistent pool w ->
  get_balances pool to_checksum_address rpc fuel a w = Some (inr b, w') ->
  nth_error pool (current_rpc_index w') = Some (provider w') /\
  (current_rpc_index w' < List.length pool)%nat.
Proof.
  intros Hc Hg.
  destruct (get_balances_inr _ _ _ _ _ _ _ _ Hg)
    as (k & a' & w0 & a'' & _ & Haf & Hat).
  destruct (after_failures_world _ _ _ _ _ _ _ _ Haf) as (_ & Hcons & _).
  destruct (attempt_only_calls _ _ _ _ _ _ _ Hat) as (Hi & Hp & _).
  assert (Hc' : consistent pool w').
  { unfold consistent in *. rewrite Hi, Hp. exact (Hcons Hc). }
  split; [exact Hc' | exact (consistent_lt _ _ Hc')].
Qed.

Lemma get_balances_keeps_provider_in_step_witness :
  nth_error pool_ABC 2 = Some "C"%string /\ (2 < 3)%nat.
Proof.
  refine (get_balances_keeps_provider_in_step pool_ABC any_address only_C_up
            3 USER world_A mock_reading
            {| current_rpc_index := 2; provider := "C";
               trace :=
                 [ Call "A" MORPHO_DEFAULT (balanceOf USER); Sleep 2;
                   Call "B" MORPHO_DEFAULT (balanceOf USER); Sleep 2 ]
                 ++ six_calls "C" USER 100 10 |} _ _).
  - reflexivity.
  - vm_compute. reflexivity.
Defined.

(** X2. An address that [Web3.to_checksum_address] rejects is rejected inside
    the [try], on every retry: [get_balances] never returns a reading and
    never makes a contract call; it walks the pool, two seconds apart, as
    deep as the interpreter allows, and then hands [RecursionError] to its
    caller. *)
Theorem get_balances_invalid_address
    (pool : list string) (to_checksum_address : string -> option string)
    (rpc : nat -> string -> contract -> method -> option Z)
    (provider_depth stack : nat) (a : string) (w : world) :
  in_pool pool w ->
  to_checksum_address a = None ->
  exists w',
    get_balances_limited pool to_checksum_address rpc provider_depth stack a w
      = (inl RecursionError, w') /\
    trace w' = trace w ++ repeat (Sleep 2) (stack - provider_depth).
Proof.
  intros Hin Hbad. revert w Hin.
  induction stack as [|room IH]; intros w Hin; cbn [get_balances_limited];
    rewrite (attempt_invalid _ _ _ _ Hbad);
    destruct (nth_error pool (current_rpc_index w)) as [u|] eqn:Hu;
    try (apply nth_error_None in Hu; destruct Hin; lia).
  - exists w. cbn. now rewrite app_nil_r.
  - destruct (switch_rpc_in_cases pool provider_depth room w
                (in_pool_nonempty _ _ Hin)) as (url & Hurl & Hsw).
    destruct (Nat.ltb_spec room provider_depth) as [Hlt|Hge];
      destruct (switch_rpc_in_in_pool _ _ _ _ _ _ Hin Hsw) as (Hin2 & Ht2);
      rewrite Hsw.
    + eexists. split; [reflexivity|].
      replace (S room - provider_depth)%nat with O by lia.
      cbn. now rewrite app_nil_r.
    + match type of Hin2 with in_pool _ ?v => set (w2 := v) in * end.
      destruct (IH (sleep 2 w2) (in_pool_sleep _ 2 _ Hin2)) as (w' & Hg & Ht).
      exists w'. split; [exact Hg|]. rewrite Ht. cbn [sleep log trace].
      rewrite Ht2.
      replace (S room - provider_depth)%nat
        with (S (room - provider_depth)) by lia.
      cbn [repeat]. rewrite <- app_assoc. reflexivity.
Qed.

Lemma get_balances_invalid_address_witness :
  exists w',
    get_balances_limited pool_ABC no_address mock_rpc 1 1000 USER world_A
      = (inl RecursionError, w') /\
    trace w' = repeat (Sleep 2) 999.
Proof.
  refine (get_balances_invalid_address pool_ABC no_address mock_rpc 1 1000
            USER world_A _ _).
  - split; [cbn; lia | left; reflexivity].
  - reflexivity.
Defined.





(** ** More on the table and the routes *)

Lemma db_eta d :
  d = {| defi_snapshots := defi_snapshots d; sqlite_sequence := sqlite_sequence d |}.
Proof. now destruct d. Qed.

Lemma cleanup_database_seq limit d :
  sqlite_sequence (cleanup_database limit d) = sqlite_sequence d.
Proof. unfold cleanup_database. now destruct (count d >? limit). Qed.

Lemma cleanup_database_In limit d r :
  In r (defi_snapshots (cleanup_database limit d)) -> In r (defi_snapshots d).
Proof.
  unfold cleanup_database, delete_where.
  destruct (count d >? limit); [|auto]. cbn [defi_snapshots].
  intros H. apply filter_In in H. tauto.
Qed.

(** On a well-formed table [cleanup_database] keeps the last [limit] rows of
    the scan and the counter. *)
Lemma cleanup_database_eq limit d :
  wf_db d = true -> 0 <= limit ->
  cleanup_database limit d =
    {| defi_snapshots := last_n (Z.to_nat limit) (defi_snapshots d);
       sqlite_sequence := sqlite_sequence d |}.
Proof.
  intros Hwf Hlim. destruct (wf_db_ascending _ Hwf) as (lo & Hasc).
  unfold last_n. destruct (Z.le_gt_cases (count d) limit) as [Hle|Hgt].
  - rewrite (cleanup_database_noop _ _ Hle).
    replace (List.length (defi_snapshots d) - Z.to_nat limit)%nat with O
      by (unfold count in Hle; lia).
    apply db_eta.
  - rewrite (db_eta (cleanup_database limit d)), cleanup_database_seq.
    rewrite (cleanup_database_rows d lo limit Hasc) by lia.
    do 2 f_equal. unfold count. lia.
Qed.

Lemma last_n_snoc {A} (n : nat) (l : list A) (x : A) :
  last_n n (last_n n l ++ [x]) = last_n n (l ++ [x]).
Proof.
  unfold last_n. rewrite !length_app, length_skipn. cbn [List.length].
  destruct (Nat.le_gt_cases (List.length l) n) as [Hle|Hgt].
  - replace (List.length l - n)%nat with O by lia. rewrite skipn_0.
    f_equal. lia.
  - destruct n as [|n].
    + rewrite !skipn_all2; [reflexivity | | ];
        rewrite length_app; cbn [List.length]; try rewrite length_skipn; lia.
    + rewrite !skipn_app, skipn_skipn, !length_skipn. f_equal.
      * f_equal. lia.
      * f_equal. lia.
Qed.

Lemma max_rowid_filter (f : row -> bool) rows :
  max_rowid (filter f rows) <= max_rowid rows.
Proof.
  induction rows as [|a l IH]; [cbn; lia|].
  cbn [filter]. destruct (f a); cbn; fold (max_rowid l);
    try fold (max_rowid (filter f l)); lia.
Qed.

Lemma seq_ok_next_id d : seq_ok d = true -> next_id d = sqlite_sequence d + 1.
Proof. unfold seq_ok, next_id. intros H. apply Z.leb_le in H. lia. Qed.

Lemma save_snapshot_seq_ok now address b d d' :
  save_snapshot now address b d = inr d' ->
  seq_ok d' = true /\ sqlite_sequence d' = next_id d.
Proof.
  unfold save_snapshot. destruct (next_id d >? MAX_ROWID); [discriminate|].
  intros E. injection E as <-. unfold seq_ok. cbn [defi_snapshots sqlite_sequence].
  split; [|reflexivity]. rewrite max_rowid_snoc. cbn [new_row c_id].
  apply Z.leb_le. unfold next_id. lia.
Qed.

Lemma cleanup_database_seq_ok limit d :
  seq_ok d = true -> seq_ok (cleanup_database limit d) = true.
Proof.
  unfold seq_ok, cleanup_database, delete_where. intros H.
  destruct (count d >? limit); [|exact H]. cbn [defi_snapshots sqlite_sequence].
  apply Z.leb_le in H. apply Z.leb_le.
  pose proof (max_rowid_filter
                (fun r => negb (not_in (c_id r)
                   (map c_id (sql_limit limit (order_by_id_desc (defi_snapshots d))))))
                (defi_snapshots d)). lia.
Qed.

Lemma count_saves_nonneg ops : 0 <= count_saves ops.
Proof. induction ops as [|[now address b|limit] ops IH]; cbn [count_saves]; lia. Qed.

(** X4. Rowids are never reused.  Through any sequence of successful
    [save_snapshot] and [cleanup_database] calls the counter grows by one per
    save, whatever was deleted in between, and every row of the table is
    either one that was there before or carries a rowid above the old
    counter. *)
Theorem rowids_never_reused (ops : list op) (d d' : db) :
  seq_ok d = true ->
  run ops d = inr d' ->
  sqlite_sequence d' = sqlite_sequence d + count_saves ops /\
  seq_ok d' = true /\
  (forall r, In r (defi_snapshots d') ->
     In r (defi_snapshots d) \/
     sqlite_sequence d < c_id r <= sqlite_sequence d').
Proof.
  revert d. induction ops as [|[now address b|limit] ops IH]; intros d Hok Hrun.
  - cbn in Hrun. injection Hrun as <-. cbn. split; [lia|]. split; auto.
  - cbn [run] in Hrun.
    destruct (save_snapshot now address b d) as [e|d1] eqn:Hs; [discriminate|].
    destruct (save_snapshot_seq_ok _ _ _ _ _ Hs) as (Hok1 & Hseq1).
    destruct (save_snapshot_inr _ _ _ _ _ Hs) as (Hrows1 & _ & _).
    rewrite (seq_ok_next_id _ Hok) in Hseq1, Hrows1.
    destruct (IH _ Hok1 Hrun) as (Hseq & Hok' & Hin).
    pose proof (count_saves_nonneg ops) as Hn.
    cbn [count_saves]. split; [lia|]. split; [exact Hok'|].
    intros r Hr. destruct (Hin r Hr) as [Hr1|Hr1]; [|right; lia].
    rewrite Hrows1 in Hr1. apply in_app_or in Hr1.
    destruct Hr1 as [Hr1|[<-|[]]]; [now left|]. right. cbn [new_row c_id]. lia.
  - cbn [run] in Hrun.
    destruct (IH _ (cleanup_database_seq_ok limit d Hok) Hrun) as (Hseq & Hok' & Hin).
    rewrite cleanup_database_seq in Hseq, Hin.
    cbn [count_saves]. split; [exact Hseq|]. split; [exact Hok'|].
    intros r Hr. destruct (Hin r Hr) as [Hr1|Hr1]; [|now right].
    left. exact (cleanup_database_In _ _ _ Hr1).
Qed.

Lemma rowids_never_reused_witness :
  exists d',
    run [ Cleanup 0; Save "2026-01-01T00:10:00" USER mock_reading ]
      db_plus_minus = inr d' /\
    sqlite_sequence d' = 3 /\ map c_id (defi_snapshots d') = [3].
Proof.
  eexists. split; [vm_compute; reflexivity|].
  split; [|vm_compute; reflexivity].
  exact (proj1 (rowids_never_reused
                  [ Cleanup 0; Save "2026-01-01T00:10:00" USER mock_reading ]
                  db_plus_minus _ eq_refl eq_refl)).
Defined.

Lemma insert_desc_In r x : forall l, In x l -> In x (insert_desc r l).
Proof.
  induction l as [|y l IH]; intros H; [contradiction|].
  cbn. destruct (c_id y <=? c_id r); [now right|].
  destruct H as [<-|H]; [now left | right; auto].
Qed.

Lemma insert_desc_head r l : In r (insert_desc r l).
Proof.
  induction l as [|y l IH]; cbn; [now left|].
  destruct (c_id y <=? c_id r); [now left | now right].
Qed.

Lemma order_by_id_desc_In x : forall l, In x l -> In x (order_by_id_desc l).
Proof.
  induction l as [|y l IH]; intros H; [contradiction|].
  unfold order_by_id_desc in *. cbn [fold_right].
  destruct H as [<-|H]; [apply insert_desc_head | apply insert_desc_In; auto].
Qed.

(** X5. With a negative limit [cleanup_database] deletes nothing, although
    the row count exceeds the limit: SQLite reads a negative [LIMIT] as no
    limit, so every id is in the set to keep. *)
Theorem cleanup_database_negative_limit (limit : Z) (d : db) :
  limit < 0 -> cleanup_database limit d = d.
Proof.
  intros Hneg. unfold cleanup_database, delete_where, sql_limit.
  assert (Hc : 0 <= count d) by (unfold count; lia).
  destruct (Z.gtb_spec (count d) limit); [|lia].
  destruct (Z.ltb_spec limit 0); [|lia].
  rewrite filter_all.
  - symmetry. apply db_eta.
  - intros r Hr. unfold not_in. rewrite negb_involutive.
    apply existsb_eqb_In. apply in_map. apply order_by_id_desc_In. exact Hr.
Qed.

Lemma cleanup_database_negative_limit_witness :
  cleanup_database (-1) db_plus_minus = db_plus_minus.
Proof. apply cleanup_database_negative_limit. lia. Defined.

(** X6. [cleanup_database] is idempotent: a second call with the same limit
    changes nothing. *)
Theorem cleanup_database_idempotent (limit : Z) (d : db) :
  wf_db d = true ->
  cleanup_database limit (cleanup_database limit d) = cleanup_database limit d.
Proof.
  intros Hwf. destruct (Z.lt_ge_cases limit 0) as [Hneg|Hpos].
  - now rewrite !cleanup_database_negative_limit.
  - apply cleanup_database_noop.
    rewrite (cleanup_database_eq _ _ Hwf Hpos). unfold count, last_n.
    cbn [defi_snapshots]. rewrite length_skipn. lia.
Qed.

Lemma cleanup_database_idempotent_witness :
  cleanup_database 1000 (cleanup_database 1000 db_1002) =
  cleanup_database 1000 db_1002.
Proof. apply cleanup_database_idempotent. vm_compute. reflexivity. Defined.

Lemma cleanup_database_ascending limit d lo :
  ascending_from lo (defi_snapshots d) = true ->
  ascending_from lo (defi_snapshots (cleanup_database limit d)) = true.
Proof.
  intros H. unfold cleanup_database, delete_where.
  destruct (count d >? limit); [|exact H]. cbn [defi_snapshots].
  apply ascending_from_filter. exact H.
Qed.

(** The [n] newest rows are the same before and after a pruning that keeps
    at least [n] rows. *)
Lemma select_after_cleanup n limit d :
  wf_db d = true -> 0 <= n <= limit ->
  sql_limit n (order_by_id_desc (defi_snapshots (cleanup_database limit d))) =
  sql_limit n (order_by_id_desc (defi_snapshots d)).
Proof.
  intros Hwf [Hn Hl]. destruct (wf_db_ascending _ Hwf) as (lo & Hasc).
  rewrite (select_top _ lo n (cleanup_database_ascending limit d lo Hasc) Hn).
  rewrite (select_top _ lo n Hasc Hn).
  rewrite (cleanup_database_eq _ _ Hwf) by lia.
  cbn [defi_snapshots]. unfold last_n. rewrite skipn_skipn, length_skipn.
  do 2 f_equal. lia.
Qed.

(** X7. Pruning does not show through the routes: after [cleanup_database]
    with a limit of at least 1, 50 and 1000 rows, [latest_snapshot], [history]
    and [stats] answer what they answered before. *)
Theorem routes_unchanged_by_cleanup (limit : Z) (d : db) :
  wf_db d = true ->
  (1 <= limit ->
   latest_snapshot (cleanup_database limit d) = latest_snapshot d) /\
  (50 <= limit -> history (cleanup_database limit d) = history d) /\
  (1000 <= limit -> stats (cleanup_database limit d) = stats d).
Proof.
  intros Hwf. split; [|split]; intros Hl.
  - unfold latest_snapshot. rewrite select_after_cleanup by (auto; lia).
    reflexivity.
  - unfold history. rewrite select_after_cleanup by (auto; lia). reflexivity.
  - unfold stats, window_nets. rewrite select_after_cleanup by (auto; lia).
    reflexivity.
Qed.

Lemma routes_unchanged_by_cleanup_witness :
  latest_snapshot (cleanup_database 1000 db_1002) = latest_snapshot db_1002 /\
  history (cleanup_database 1000 db_1002) = history db_1002 /\
  stats (cleanup_database 1000 db_1002) = stats db_1002 /\
  count (cleanup_database 1000 db_1002) = 1000.
Proof.
  assert (Hwf : wf_db db_1002 = true) by (vm_compute; reflexivity).
  destruct (routes_unchanged_by_cleanup 1000 db_1002 Hwf) as (H1 & H2 & H3).
  split; [apply H1; lia|]. split; [apply H2; lia|]. split; [apply H3; lia|].
  rewrite (cleanup_database_eq _ _ Hwf) by lia. vm_compute. reflexivity.
Defined.

(** X8. [latest_snapshot] answers the first element of what [history]
    answers, and its 404 exactly when [history] answers the empty array. *)
Theorem latest_is_head_of_history (d : db) :
  exists l,
    history d = (JArray l, 200) /\
    latest_snapshot d =
      match l with
      | j :: _ => (j, 200)
      | [] => (JObject [("error", JString "No hay datos aún")]%string, 404)
      end.
Proof.
  unfold history, latest_snapshot, jsonify, fetchone, sql_limit. cbn -[order_by_id_desc].
  eexists. split; [reflexivity|].
  destruct (order_by_id_desc (defi_snapshots d)); reflexivity.
Qed.

Lemma latest_snapshot_last d lo l r :
  defi_snapshots d = l ++ [r] ->
  ascending_from lo (l ++ [r]) = true ->
  latest_snapshot d = (row_dict r, 200).
Proof.
  intros Hl Hasc. unfold latest_snapshot. rewrite Hl.
  rewrite (select_top _ lo 1 Hasc) by lia.
  rewrite length_app. cbn [List.length].
  replace (List.length l + 1 - Z.to_nat 1)%nat with (List.length l) by lia.
  rewrite skipn_app, skipn_all, Nat.sub_diag. reflexivity.
Qed.

Lemma json_real_bind_real f :
  json_real (bind_real f) =
    if PrimFloat.is_nan f then JNull
    else if PrimFloat.eqb f 0 then JFloat 0
    else JFloat f.
Proof.
  unfold bind_real. destruct (PrimFloat.is_nan f); [reflexivity|].
  destruct (PrimFloat.eqb f 0); reflexivity.
Qed.

(** X9. What [save_snapshot] writes is what [latest_snapshot] serves next:
    the object with the new rowid, the given time stamp and address, and the
    five amounts of the reading as the [REAL] columns give them back, a NaN
    as [null], a zero of either sign as [0.0], any other amount as it is. *)
Theorem save_snapshot_then_latest
    (now address : string) (b : balances) (d d' : db) :
  wf_db d = true ->
  save_snapshot now address b d = inr d' ->
  let stored := fun f : float =>
    if PrimFloat.is_nan f then JNull
    else if PrimFloat.eqb f 0 then JFloat 0
    else JFloat f in
  latest_snapshot d' =
    (JObject
       [ ("id", JInt (next_id d)); ("timestamp", JString now);
         ("address", JString address);
         ("morpho", stored (morpho b)); ("aave", stored (aave b));
         ("euler", stored (euler b)); ("debt", stored (debt b));
         ("net", stored (net b)) ]%string, 200) /\
  count d' = count d + 1.
Proof.
  intros Hwf Hs stored.
  destruct (save_snapshot_inr _ _ _ _ _ Hs) as (Hrows & _ & _).
  destruct (wf_db_ascending _ (save_snapshot_wf _ _ _ _ _ Hwf Hs)) as (lo & Hasc).
  rewrite Hrows in Hasc. split.
  - rewrite (latest_snapshot_last d' lo _ _ Hrows Hasc).
    unfold row_dict, new_row, jsonify. cbn [c_id c_timestamp c_address c_morpho c_aave c_euler c_debt c_net].
    rewrite !json_real_bind_real. reflexivity.
  - unfold count. rewrite Hrows, length_app. cbn [List.length]. lia.
Qed.

Lemma save_snapshot_then_latest_witness :
  exists d',
    save_snapshot "2026-01-01T00:10:00" USER
      {| morpho := 200; aave := (-0)%float; euler := nan; debt := 0;
         net := 260 |} db_plus_minus = inr d' /\
    latest_snapshot d' =
      (JObject
         [ ("id", JInt 3); ("timestamp", JString "2026-01-01T00:10:00");
           ("address", JString "0x0000000000000000000000000000000000000000");
           ("morpho", JFloat 200); ("aave", JFloat 0); ("euler", JNull);
           ("debt", JFloat 0); ("net", JFloat 260) ]%string, 200).
Proof.
  eexists. split; [vm_compute; reflexivity|].
  exact (proj1 (save_snapshot_then_latest "2026-01-01T00:10:00" USER
                  {| morpho := 200; aave := (-0)%float; euler := nan;
                     debt := 0; net := 260 |} db_plus_minus _ eq_refl eq_refl)).
Defined.

(** X10. [stats] answers status 200 with its four keys on every table: it
    never raises and never reaches its 404 branch. *)
Theorem stats_always_200 (d : db) :
  exists avg mn mx v,
    stats d =
      inr (JObject [ ("average_net", avg); ("min_net", mn); ("max_net", mx);
                     ("variation", v) ]%string, 200).
Proof.
  unfold stats, select_avg_min_max, fetchone, sql_avg, sql_min, sql_max.
  cbn [hd_error].
  destruct (non_null (window_nets 1000 d)) as [|f fs].
  - cbn. repeat eexists.
  - destruct (result_real _) as [avg|]; cbn [real_truthy real_sub].
    + destruct (float_truthy avg); repeat eexists.
    + repeat eexists.
Qed.

(** ** Saving and pruning together; the robot *)

Lemma cleanup_database_next_id limit d :
  seq_ok d = true -> next_id (cleanup_database limit d) = next_id d.
Proof.
  intros Hok.
  rewrite (seq_ok_next_id _ (cleanup_database_seq_ok limit d Hok)).
  rewrite (seq_ok_next_id _ Hok), cleanup_database_seq. reflexivity.
Qed.

(** Pruning before a save does not change what pruning after it leaves. *)
Lemma save_snapshot_after_cleanup limit now address b d :
  wf_db d = true -> seq_ok d = true -> 0 <= limit ->
  match save_snapshot now address b d with
  | inr d1 =>
      exists d2,
        save_snapshot now address b (cleanup_database limit d) = inr d2 /\
        cleanup_database limit d2 = cleanup_database limit d1
  | inl e => save_snapshot now address b (cleanup_database limit d) = inl e
  end.
Proof.
  intros Hwf Hok Hlim.
  destruct (save_snapshot now address b d) as [e|d1] eqn:Hs1.
  - unfold save_snapshot in *. rewrite (cleanup_database_next_id _ _ Hok).
    destruct (next_id d >? MAX_ROWID); [exact Hs1 | discriminate].
  - destruct (save_snapshot now address b (cleanup_database limit d))
      as [e|d2] eqn:Hs2.
    + unfold save_snapshot in *. rewrite (cleanup_database_next_id _ _ Hok) in Hs2.
      destruct (next_id d >? MAX_ROWID); discriminate.
    + exists d2. split; [reflexivity|].
      pose proof (save_snapshot_wf _ _ _ _ _ Hwf Hs1) as Hwf1.
      pose proof (save_snapshot_wf _ _ _ _ _ (cleanup_database_wf limit d Hwf) Hs2)
        as Hwf2.
      rewrite (cleanup_database_eq _ _ Hwf1 Hlim).
      rewrite (cleanup_database_eq _ _ Hwf2 Hlim).
      destruct (save_snapshot_inr _ _ _ _ _ Hs1) as (Hr1 & _ & _).
      destruct (save_snapshot_inr _ _ _ _ _ Hs2) as (Hr2 & _ & _).
      destruct (save_snapshot_seq_ok _ _ _ _ _ Hs1) as (_ & Hq1).
      destruct (save_snapshot_seq_ok _ _ _ _ _ Hs2) as (_ & Hq2).
      rewrite Hr1, Hr2, Hq1, Hq2, (cleanup_database_next_id _ _ Hok).
      rewrite (cleanup_database_eq _ _ Hwf Hlim). cbn [defi_snapshots].
      rewrite last_n_snoc. reflexivity.
Qed.

(** X11. Pruning after every save, as the robot does, leaves the table that
    pruning once after all the saves leaves, and fails on the same save if a
    save fails. *)
Theorem pruning_each_time_or_once
    (limit : Z) (xs : list (string * string * balances)) (d : db) :
  wf_db d = true -> seq_ok d = true -> 0 <= limit ->
  appends_pruned limit xs (cleanup_database limit d) =
    match appends xs d with
    | inr d1 => inr (cleanup_database limit d1)
    | inl e => inl e
    end.
Proof.
  intros Hwf Hok Hlim. revert d Hwf Hok.
  induction xs as [|[[now address] b] xs IH]; intros d Hwf Hok; [reflexivity|].
  cbn [appends_pruned appends].
  pose proof (save_snapshot_after_cleanup limit now address b d Hwf Hok Hlim) as H.
  destruct (save_snapshot now address b d) as [e|d1] eqn:Hs1.
  - rewrite H. reflexivity.
  - destruct H as (d2 & Hs2 & Hc). rewrite Hs2, Hc.
    apply IH.
    + exact (save_snapshot_wf _ _ _ _ _ Hwf Hs1).
    + exact (proj1 (save_snapshot_seq_ok _ _ _ _ _ Hs1)).
Qed.

Lemma pruning_each_time_or_once_witness :
  exists d',
    appends_pruned 1 plus_minus (cleanup_database 1 empty_db) = inr d' /\
    map c_id (defi_snapshots d') = [2].
Proof.
  rewrite (pruning_each_time_or_once 1 plus_minus empty_db eq_refl eq_refl);
    [|lia].
  eexists. split; vm_compute; reflexivity.
Defined.

Lemma count_cleanup_database limit d :
  wf_db d = true -> 0 <= limit ->
  count (cleanup_database limit d) = Z.min (count d) limit.
Proof.
  intros Hwf Hlim. rewrite (cleanup_database_eq _ _ Hwf Hlim).
  unfold count, last_n. cbn [defi_snapshots]. rewrite length_skipn. lia.
Qed.

Section RobotLimitFacts.

Variable pool : list string.
Variable to_checksum_address : string -> option string.
Variable rpc : nat -> string -> contract -> method -> option Z.
Variable provider_depth : nat.
Variable user : string.

Lemma robot_cycle_limited_invariant stack now w d w' d' :
  in_pool pool w -> wf_db d = true -> seq_ok d = true ->
  robot_cycle_limited pool to_checksum_address rpc provider_depth user
    stack now (w, d) = (w', d') ->
  in_pool pool w' /\ wf_db d' = true /\ seq_ok d' = true /\
  (count d <= LIMIT_REGISTROS -> count d' <= LIMIT_REGISTROS) /\
  sqlite_sequence d <= sqlite_sequence d' <= sqlite_sequence d + 1.
Proof.
  intros Hin Hwf Hok. unfold robot_cycle_limited.
  destruct (get_balances_limited pool to_checksum_address rpc provider_depth
              stack user w) as [[e|b] w1] eqn:Hg;
    pose proof (get_balances_limited_in_pool _ _ _ _ _ _ _ _ _ Hg Hin) as Hin1.
  - intros E. injection E as <- <-. repeat split; auto; try apply Hin1; lia.
  - destruct (save_snapshot now user b d) as [e|d1] eqn:Hs; intros E;
      injection E as <- <-.
    + repeat split; auto; try apply Hin1; lia.
    + pose proof (save_snapshot_wf _ _ _ _ _ Hwf Hs) as Hwf1.
      destruct (save_snapshot_seq_ok _ _ _ _ _ Hs) as (Hok1 & Hq1).
      rewrite (seq_ok_next_id _ Hok) in Hq1.
      split; [exact (in_pool_sleep _ _ _ Hin1)|].
      split; [exact (cleanup_database_wf _ _ Hwf1)|].
      split; [exact (cleanup_database_seq_ok _ _ Hok1)|].
      rewrite cleanup_database_seq. split; [|lia].
      intros _. rewrite (count_cleanup_database _ _ Hwf1)
        by (unfold LIMIT_REGISTROS; lia).
      lia.
Qed.

(** A pass in which the call under the limit returns a reading is the pass
    of [robot_cycle]. *)
Lemma robot_cycle_limited_reading stack now w d b w1 :
  get_balances_limited pool to_checksum_address rpc provider_depth stack user w
    = (inr b, w1) ->
  robot_cycle pool to_checksum_address rpc user (S stack) now (w, d) =
    Some (robot_cycle_limited pool to_checksum_address rpc provider_depth user
            stack now (w, d)).
Proof.
  intros Hg. unfold robot_cycle, robot_cycle_limited.
  rewrite (get_balances_limited_reading _ _ _ _ _ _ _ _ _ Hg), Hg.
  destruct (save_snapshot now user b d); reflexivity.
Qed.

End RobotLimitFacts.

(** X12. The robot keeps the table bounded and in order, whatever the chain
    does.  From a table of at most [LIMIT_REGISTROS] rows, after any number of
    passes, passes that end with [RecursionError] included, the table has at
    most [LIMIT_REGISTROS] rows, its rowids increase along the scan and stay
    below the counter, the counter has grown by at most one per pass, the
    cursor is inside the pool and the provider is one built from an endpoint
    of the pool. *)
Theorem robot_loop_invariant
    (pool : list string) (to_checksum_address : string -> option string)
    (rpc : nat -> string -> contract -> method -> option Z)
    (provider_depth : nat) (user : string) (stack : nat)
    (nows : list string) (w : world) (d : db) (w' : world) (d' : db) :
  (current_rpc_index w < List.length pool)%nat -> In (provider w) pool ->
  wf_db d = true -> seq_ok d = true ->
  count d <= LIMIT_REGISTROS ->
  robot_loop pool to_checksum_address rpc provider_depth user stack nows (w, d)
    = (w', d') ->
  (current_rpc_index w' < List.length pool)%nat /\ In (provider w') pool /\
  wf_db d' = true /\ seq_ok d' = true /\
  count d' <= LIMIT_REGISTROS /\
  sqlite_sequence d <= sqlite_sequence d'
    <= sqlite_sequence d + Z.of_nat (List.length nows).
Proof.
  intros Hlt Hp. assert (Hin : in_pool pool w) by (split; assumption).
  clear Hlt Hp. revert w d Hin.
  induction nows as [|now nows IH]; intros w d Hin Hwf Hok Hcount Hloop.
  - cbn in Hloop. injection Hloop as <- <-. destruct Hin.
    cbn. repeat split; auto; lia.
  - cbn [robot_loop] in Hloop.
    destruct (robot_cycle_limited pool to_checksum_address rpc provider_depth
                user stack now (w, d)) as [w1 d1] eqn:Hcy.
    destruct (robot_cycle_limited_invariant _ _ _ _ _ _ _ _ _ _ _ Hin Hwf Hok Hcy)
      as (Hin1 & Hwf1 & Hok1 & Hcount1 & Hseq1).
    destruct (IH _ _ Hin1 Hwf1 Hok1 (Hcount1 Hcount) Hloop)
      as (Hlt' & Hp' & Hwf' & Hok' & Hcount' & Hseq').
    cbn [List.length]. repeat split; auto; lia.
Qed.

Lemma robot_loop_invariant_witness :
  exists w' d',
    robot_loop pool_ABC any_address dead_rpc 1 USER 2
      [ "2026-01-01T00:00:00"%string ] (world_A, empty_db) = (w', d') /\
    current_rpc_index w' = 2%nat /\ provider w' = "B"%string /\
    d' = empty_db /\
    (current_rpc_index w' < 3)%nat /\ In (provider w') pool_ABC /\
    wf_db d' = true /\ seq_ok d' = true /\
    count d' <= LIMIT_REGISTROS /\
    sqlite_sequence empty_db <= sqlite_sequence d'
      <= sqlite_sequence empty_db + 1.
Proof.
  eexists. eexists. split; [vm_compute; reflexivity|].
  split; [reflexivity|]. split; [reflexivity|]. split; [reflexivity|].
  refine (robot_loop_invariant pool_ABC any_address dead_rpc 1 USER 2
            [ "2026-01-01T00:00:00"%string ] world_A empty_db _ _
            _ _ _ _ _ _).
  - cbn. lia.
  - left. reflexivity.
  - reflexivity.
  - reflexivity.
  - unfold LIMIT_REGISTROS. vm_compute. discriminate.
  - vm_compute. reflexivity.
Defined.


